(** * HyperTrack wrapper: callback-to-promise/observable facade

    A shallow embedding of the [hyper-track] plugin wrapper: the
    [Coordinates] constructor with its range check, and the [HyperTrack]
    facade that adapts the callback-pair methods of the native SDK instance
    ([HyperTrackCordova]) to promises and observables.

    The JavaScript heap the facade touches is made explicit as a [world]:
    the promises created by [new Promise], the subscribers created by
    subscribing to an [Observable], and the log of calls that crossed the
    native boundary.  The arrow functions the facade hands to the native
    layer are closures over [resolve], [reject] and [observer]; they are
    represented first-order, by the promise or subscriber they close over. *)

From Stdlib Require Import QArith.
From stdpp Require Import list strings.

Set Default Proof Using "Type".
Set Warnings "-register-all".
Open Scope string_scope.
Open Scope list_scope.

(** ** JavaScript numbers

    A [number] is an IEEE 754 double.  Only the relational operators are
    applied to numbers here, and ECMAScript defines them on the mathematical
    value of the operands, so a finite number is represented by its exact
    rational value (both zeroes denote 0).  Every finite double is such a
    rational, so what holds of all [number]s holds of all doubles; NaN and
    the whole numbers used as concrete inputs below are doubles. *)

Inductive number : Type :=
| NaN
| NegInfinity
| Finite (q : Q)
| PosInfinity.

Definition Qltb (x y : Q) : bool :=
  (Qnum x * Zpos (Qden y) <? Qnum y * Zpos (Qden x))%Z.

(** Number::lessThan(x, y); [None] is the [undefined] result for NaN. *)
Definition lessThan (x y : number) : option bool :=
  match x, y with
  | NaN, _ | _, NaN => None
  | PosInfinity, _ => Some false
  | _, PosInfinity => Some true
  | _, NegInfinity => Some false
  | NegInfinity, _ => Some true
  | Finite a, Finite b => Some (Qltb a b)
  end.

(** [x < y]: an undefined comparison yields false. *)
Definition js_lt (x y : number) : bool :=
  match lessThan x y with
  | Some b => b
  | None => false
  end.

(** [x > y] is the comparison of y with x. *)
Definition js_gt (x y : number) : bool := js_lt y x.

Definition num (z : Z) : number := Finite (inject_Z z).

(** ** Values crossing the facade *)

(** A native SDK instance is an opaque object owned by the native layer;
    the wrapper only ever holds on to its identity. *)
Definition HyperTrackCordova : Type := nat.

(** [class Coordinates]: the class declares no field and its constructor
    assigns none, so an instance carries no data. *)
Inductive Coordinates : Type := mkCoordinates.

(** [class HyperTrack]: the only field is the private constructor parameter
    property [cordovaInstanceHandle]. *)
Record HyperTrack : Type := new_HyperTrack
  { cordovaInstanceHandle : HyperTrackCordova }.

(** The classes of error objects that occur: [Error] itself (whatever the
    native layer reports) and the wrapper's own subclass. *)
Inductive error_class : Type :=
| Error_
| CoordinatesValidationError.

Inductive value : Type :=
| VUndefined
| VBool (b : bool)
| VNumber (n : number)
| VString (s : string)
| VObject (props : list (string * value))
| VSet (elems : list value)
| VError (cls : error_class) (message : string)
| VCoordinates (c : Coordinates)
| VNative (h : HyperTrackCordova)
| VHyperTrack (i : HyperTrack).

(** The first actual argument of a call; a parameter without an argument is
    [undefined]. *)
Definition arg0 (args : list value) : value :=
  match args with
  | [] => VUndefined
  | v :: _ => v
  end.

(** ** The heap: promises, subscribers, and the native boundary *)

Inductive pstate : Type :=
| Pending
| Fulfilled (v : value)
| Rejected (reason : value).

Inductive notification : Type :=
| Next (v : value)
| Error (err : value).

(** A subscriber of an observable: what its consumer has been handed so far,
    and whether it still accepts notifications. *)
Record subscriber : Type := mkSubscriber
  { received : list notification;
    isStopped : bool }.

(** The arrow functions passed to the native SDK instance, by what they
    close over. *)
Inductive callback : Type :=
| ResolveWithArg (p : nat)     (* (x) => resolve(x) *)
| ResolveVoid (p : nat)        (* () => resolve() *)
| RejectWithArg (p : nat)      (* (err) => reject(err) *)
| ObserverNext (s : nat)       (* (res) => { observer.next(res); } *)
| ObserverError (s : nat).     (* (err) => { observer.error(err); } *)

(** [interface HyperTrackCordova]: the methods of the native SDK instance.
    Every one takes its data arguments followed by a success and a failure
    callback. *)
Inductive HyperTrackCordova_method : Type :=
| Cordova_getDeviceId
| Cordova_isRunning
| Cordova_isTracking
| Cordova_setDeviceName
| Cordova_setDeviceMetadata
| Cordova_setTrackingNotificationProperties
| Cordova_addGeoTag
| Cordova_requestPermissionsIfNecessary
| Cordova_allowMockLocations
| Cordova_syncDeviceSettings
| Cordova_start
| Cordova_stop
| Cordova_setAvailability
| Cordova_getAvailability
| Cordova_trackingStateChange
| Cordova_disposeTrackingState
| Cordova_availabilityStateChange
| Cordova_disposeAvailabilityState.

(** One call of a method of a native SDK instance, as the native layer
    receives it. *)
Record native_call : Type := mkNativeCall
  { nc_target : HyperTrackCordova;
    nc_method : HyperTrackCordova_method;
    nc_args : list value;
    nc_success : callback;
    nc_failure : callback }.

(** [class HyperTrackPlugin]: the three decorated static entry points. *)
Inductive HyperTrackPlugin_method : Type :=
| Plugin_initialize
| Plugin_getBlockers
| Plugin_enableDebugLogging.

(** What [initialize] chains on the plugin's promise:
    [.then((cordovaInstance) => { resolve(new HyperTrack(cordovaInstance)); })
     .catch((err) => reject(err))],
    closing over [resolve] and [reject] of the promise [outer]. *)
Inductive reaction : Type :=
| WrapInstanceOrReject (outer : nat).

(** One call of a plugin method: the promise it returned, and what has been
    chained on that promise. *)
Record plugin_call : Type := mkPluginCall
  { pc_method : HyperTrackPlugin_method;
    pc_args : list value;
    pc_state : pstate;
    pc_reactions : list reaction }.

Record world : Type := mkWorld
  { promises : list pstate;            (* promises made by [new Promise] *)
    subscribers : list subscriber;     (* subscriptions to observables *)
    native_calls : list native_call;   (* calls on native SDK instances *)
    plugin_calls : list plugin_call }. (* calls on the plugin *)

Definition empty_world : world := mkWorld [] [] [] [].

Definition set_promises (f : list pstate -> list pstate) (w : world) : world :=
  mkWorld (f (promises w)) (subscribers w) (native_calls w) (plugin_calls w).

Definition set_subscribers (f : list subscriber -> list subscriber) (w : world) : world :=
  mkWorld (promises w) (f (subscribers w)) (native_calls w) (plugin_calls w).

Definition set_native_calls (f : list native_call -> list native_call) (w : world) : world :=
  mkWorld (promises w) (subscribers w) (f (native_calls w)) (plugin_calls w).

Definition set_plugin_calls (f : list plugin_call -> list plugin_call) (w : world) : world :=
  mkWorld (promises w) (subscribers w) (native_calls w) (f (plugin_calls w)).

(** ** Computations: state and exceptions *)

Inductive completion (A : Type) : Type :=
| Normal (a : A)
| Throw (exn : value).
Arguments Normal {A} a.
Arguments Throw {A} exn.

Definition M (A : Type) : Type := world -> completion A * world.

Definition ret {A} (a : A) : M A := fun w => (Normal a, w).

Definition throw {A} (exn : value) : M A := fun w => (Throw exn, w).

Definition bind {A B} (m : M A) (k : A -> M B) : M B :=
  fun w =>
    match m w with
    | (Normal a, w') => k a w'
    | (Throw exn, w') => (Throw exn, w')
    end.

Notation "x <- m ;; k" := (bind m (fun x => k))
  (at level 100, m at next level, right associativity).
Notation "m ;;; k" := (bind m (fun _ => k))
  (at level 100, right associativity).

Definition modify (f : world -> world) : M unit := fun w => (Normal tt, f w).

(** The state a computation leaves behind, and its completion. *)
Definition exec {A} (m : M A) (w : world) : world := snd (m w).
Definition eval {A} (m : M A) (w : world) : completion A := fst (m w).

(** ** Promises

    [resolve] and [reject] act on a pending promise only; a settled promise
    ignores them.  No value of [value] is a thenable, so [resolve] fulfils
    with the value it is given. *)

Definition settle (p : nat) (s : pstate) : M unit :=
  modify (fun w =>
    match promises w !! p with
    | Some Pending => set_promises (<[p := s]>) w
    | _ => w
    end).

Definition resolve (p : nat) (v : value) : M unit := settle p (Fulfilled v).
Definition reject (p : nat) (reason : value) : M unit := settle p (Rejected reason).

(** [new Promise(executor)]: the executor runs at once, with the [resolve]
    and [reject] of the new promise [p]; if it throws, the promise is
    rejected with what it threw. *)
Definition new_Promise (executor : nat -> M unit) : M nat :=
  fun w =>
    let p := length (promises w) in
    match executor p (set_promises (fun ps => ps ++ [Pending]) w) with
    | (Normal _, w') => (Normal p, w')
    | (Throw exn, w') => (Normal p, exec (reject p exn) w')
    end.

(** The outcome of a promise that has settled, by the type it carries. *)
Inductive settlement (A : Type) : Type :=
| Fulfil (a : A)
| Reject (reason : value).
Arguments Fulfil {A} a.
Arguments Reject {A} reason.

(** [.then(onFulfilled)]: a rejection passes through; a handler that throws
    rejects what follows. *)
Definition promise_then {A B} (onFulfilled : A -> M B) (s : settlement A)
  : M (settlement B) :=
  match s with
  | Fulfil a => fun w =>
      match onFulfilled a w with
      | (Normal b, w') => (Normal (Fulfil b), w')
      | (Throw exn, w') => (Normal (Reject exn), w')
      end
  | Reject reason => ret (Reject reason)
  end.

(** [.catch(onRejected)]: a fulfilment passes through. *)
Definition promise_catch {A} (onRejected : value -> M A) (s : settlement A)
  : M (settlement A) :=
  match s with
  | Fulfil a => ret (Fulfil a)
  | Reject reason => fun w =>
      match onRejected reason w with
      | (Normal a, w') => (Normal (Fulfil a), w')
      | (Throw exn, w') => (Normal (Reject exn), w')
      end
  end.

(** ** Observables (rxjs)

    [new Observable(subscribe)] stores the subscribe function; nothing runs
    until a consumer subscribes, and every subscription runs it afresh. *)

Record Observable : Type := new_Observable
  { _subscribe : nat -> M unit }.

Definition observer_next (s : nat) (v : value) : M unit :=
  modify (fun w =>
    match subscribers w !! s with
    | Some sub =>
        if isStopped sub then w
        else set_subscribers (<[s := mkSubscriber (received sub ++ [Next v]) false]>) w
    | None => w
    end).

Definition observer_error (s : nat) (err : value) : M unit :=
  modify (fun w =>
    match subscribers w !! s with
    | Some sub =>
        if isStopped sub then w
        else set_subscribers (<[s := mkSubscriber (received sub ++ [Error err]) true]>) w
    | None => w
    end).

Definition subscribe (o : Observable) : M nat :=
  fun w =>
    let s := length (subscribers w) in
    match _subscribe o s (set_subscribers (fun l => l ++ [mkSubscriber [] false]) w) with
    | (Normal _, w') => (Normal s, w')
    | (Throw exn, w') => (Normal s, exec (observer_error s exn) w')
    end.

Definition unsubscribe (s : nat) : M unit :=
  modify (fun w =>
    match subscribers w !! s with
    | Some sub => set_subscribers (<[s := mkSubscriber (received sub) true]>) w
    | None => w
    end).

(** ** The native boundary *)

(** A call on a native SDK instance hands the arguments and the two
    callbacks to the native layer and returns ([void]); the native layer
    invokes the callbacks when it sees fit. *)
Definition call_native (h : HyperTrackCordova) (m : HyperTrackCordova_method)
    (args : list value) (success failure : callback) : M unit :=
  modify (set_native_calls (fun l => l ++ [mkNativeCall h m args success failure])).

(** Modelled from the spec: the [@Cordova()] decorator of the core package
    is not among the sources.  By the spec a decorated method forwards its
    arguments unchanged to the native layer and surfaces whatever the native
    layer returns, wrapped in a promise: the call is handed to the native
    layer and a pending promise, settled by the native layer, is returned. *)
Definition Cordova (m : HyperTrackPlugin_method) (args : list value) : M nat :=
  fun w =>
    (Normal (length (plugin_calls w)),
     set_plugin_calls (fun l => l ++ [mkPluginCall m args Pending []]) w).

Definition HyperTrackPlugin_initialize (publishableKey : string) : M nat :=
  Cordova Plugin_initialize [VString publishableKey].

Definition HyperTrackPlugin_getBlockers : M nat :=
  Cordova Plugin_getBlockers [].

Definition HyperTrackPlugin_enableDebugLogging : M nat :=
  Cordova Plugin_enableDebugLogging [].

(** Chaining on the promise of a plugin call.  [initialize] chains in the
    turn in which it made the call, while the promise is still pending; the
    reactions run when the native layer settles the promise. *)
Definition promise_chain (pc : nat) (r : reaction) : M unit :=
  modify (fun w =>
    match plugin_calls w !! pc with
    | Some c =>
        set_plugin_calls
          (<[pc := mkPluginCall (pc_method c) (pc_args c) (pc_state c)
                                (pc_reactions c ++ [r])]>) w
    | None => w
    end).

Definition run_reaction (r : reaction) (s : settlement HyperTrackCordova) : M unit :=
  match r with
  | WrapInstanceOrReject outer =>
      s1 <- promise_then
              (fun cordovaInstance =>
                 resolve outer (VHyperTrack (new_HyperTrack cordovaInstance))) s ;;
      _ <- promise_catch (fun err => reject outer err) s1 ;;
      ret tt
  end.

(** ** [class Coordinates] *)

Definition new_Coordinates (latitude longitude : number) : M Coordinates :=
  if js_lt latitude (num (-90)) || js_gt latitude (num 90)
     || js_lt longitude (num (-180)) || js_gt longitude (num 180)
  then throw (VError CoordinatesValidationError
                "latitude and longitude should be of correct valaues")
  else ret mkCoordinates.

(** ** [class HyperTrack] *)

(** A promise the facade hands out: one it made itself, or the promise of a
    plugin call. *)
Inductive promise_ref : Type :=
| FacadePromise (p : nat)
| PluginPromise (pc : nat).

Definition HyperTrack_enableDebugLogging : M unit :=
  _ <- HyperTrackPlugin_enableDebugLogging ;;
  ret tt.

Definition HyperTrack_initialize (publishableKey : string) : M promise_ref :=
  p <- new_Promise (fun outer =>
         pp <- HyperTrackPlugin_initialize publishableKey ;;
         promise_chain pp (WrapInstanceOrReject outer)) ;;
  ret (FacadePromise p).

Definition HyperTrack_getBlockers : M promise_ref :=
  pp <- HyperTrackPlugin_getBlockers ;;
  ret (PluginPromise pp).

Definition HyperTrack_getDeviceId (this : HyperTrack) : M promise_ref :=
  p <- new_Promise (fun p =>
         call_native (cordovaInstanceHandle this) Cordova_getDeviceId []
           (ResolveWithArg p) (RejectWithArg p)) ;;
  ret (FacadePromise p).

Definition HyperTrack_isRunning (this : HyperTrack) : M promise_ref :=
  p <- new_Promise (fun p =>
         call_native (cordovaInstanceHandle this) Cordova_isRunning []
           (ResolveWithArg p) (RejectWithArg p)) ;;
  ret (FacadePromise p).

Definition HyperTrack_isTracking (this : HyperTrack) : M promise_ref :=
  p <- new_Promise (fun p =>
         call_native (cordovaInstanceHandle this) Cordova_isTracking []
           (ResolveWithArg p) (RejectWithArg p)) ;;
  ret (FacadePromise p).

Definition HyperTrack_setDeviceName (this : HyperTrack) (name : string)
  : M promise_ref :=
  p <- new_Promise (fun p =>
         call_native (cordovaInstanceHandle this) Cordova_setDeviceName
           [VString name]
           (ResolveVoid p) (RejectWithArg p)) ;;
  ret (FacadePromise p).

Definition HyperTrack_setDeviceMetadata (this : HyperTrack) (metadata : value)
  : M promise_ref :=
  p <- new_Promise (fun p =>
         call_native (cordovaInstanceHandle this) Cordova_setDeviceMetadata
           [metadata]
           (ResolveVoid p) (RejectWithArg p)) ;;
  ret (FacadePromise p).

Definition HyperTrack_setTrackingNotificationProperties (this : HyperTrack)
    (title message : string) : M promise_ref :=
  p <- new_Promise (fun p =>
         call_native (cordovaInstanceHandle this)
           Cordova_setTrackingNotificationProperties
           [VString title; VString message]
           (ResolveVoid p) (RejectWithArg p)) ;;
  ret (FacadePromise p).

(** An optional parameter that is left out is [undefined]. *)
Definition optional_Coordinates (c : option Coordinates) : value :=
  match c with
  | Some c => VCoordinates c
  | None => VUndefined
  end.

Definition HyperTrack_addGeotag (this : HyperTrack) (geotagData : value)
    (expectedLocation : option Coordinates) : M promise_ref :=
  p <- new_Promise (fun p =>
         call_native (cordovaInstanceHandle this) Cordova_addGeoTag
           [geotagData; optional_Coordinates expectedLocation]
           (ResolveVoid p) (RejectWithArg p)) ;;
  ret (FacadePromise p).

Definition HyperTrack_requestPermissionsIfNecessary (this : HyperTrack)
  : M promise_ref :=
  p <- new_Promise (fun p =>
         call_native (cordovaInstanceHandle this)
           Cordova_requestPermissionsIfNecessary []
           (ResolveVoid p) (RejectWithArg p)) ;;
  ret (FacadePromise p).

Definition HyperTrack_allowMockLocations (this : HyperTrack) : M promise_ref :=
  p <- new_Promise (fun p =>
         call_native (cordovaInstanceHandle this) Cordova_allowMockLocations []
           (ResolveVoid p) (RejectWithArg p)) ;;
  ret (FacadePromise p).

Definition HyperTrack_syncDeviceSettings (this : HyperTrack) : M promise_ref :=
  p <- new_Promise (fun p =>
         call_native (cordovaInstanceHandle this) Cordova_syncDeviceSettings []
           (ResolveVoid p) (RejectWithArg p)) ;;
  ret (FacadePromise p).

Definition HyperTrack_start (this : HyperTrack) : M promise_ref :=
  p <- new_Promise (fun p =>
         call_native (cordovaInstanceHandle this) Cordova_start []
           (ResolveVoid p) (RejectWithArg p)) ;;
  ret (FacadePromise p).

Definition HyperTrack_stop (this : HyperTrack) : M promise_ref :=
  p <- new_Promise (fun p =>
         call_native (cordovaInstanceHandle this) Cordova_stop []
           (ResolveVoid p) (RejectWithArg p)) ;;
  ret (FacadePromise p).

Definition HyperTrack_setAvailability (this : HyperTrack) (isAvailable : bool)
  : M promise_ref :=
  p <- new_Promise (fun p =>
         call_native (cordovaInstanceHandle this) Cordova_setAvailability
           [VBool isAvailable]
           (ResolveVoid p) (RejectWithArg p)) ;;
  ret (FacadePromise p).

Definition HyperTrack_getAvailability (this : HyperTrack) : M promise_ref :=
  p <- new_Promise (fun p =>
         call_native (cordovaInstanceHandle this) Cordova_getAvailability []
           (ResolveWithArg p) (RejectWithArg p)) ;;
  ret (FacadePromise p).

Definition HyperTrack_trackingStateChange (this : HyperTrack) : Observable :=
  new_Observable (fun observer =>
    call_native (cordovaInstanceHandle this) Cordova_trackingStateChange []
      (ObserverNext observer) (ObserverError observer)).

Definition HyperTrack_disposeTrackingState (this : HyperTrack) : M promise_ref :=
  p <- new_Promise (fun p =>
         call_native (cordovaInstanceHandle this) Cordova_disposeTrackingState []
           (ResolveVoid p) (RejectWithArg p)) ;;
  ret (FacadePromise p).

Definition HyperTrack_availabilityStateChange (this : HyperTrack) : Observable :=
  new_Observable (fun observer =>
    call_native (cordovaInstanceHandle this) Cordova_availabilityStateChange []
      (ObserverNext observer) (ObserverError observer)).

Definition HyperTrack_disposeAvailabilityState (this : HyperTrack)
  : M promise_ref :=
  p <- new_Promise (fun p =>
         call_native (cordovaInstanceHandle this)
           Cordova_disposeAvailabilityState []
           (ResolveVoid p) (RejectWithArg p)) ;;
  ret (FacadePromise p).

(** ** The operations of the facade, as one type *)

(** The instance methods of [HyperTrack], each with its arguments. *)
Inductive operation : Type :=
| getDeviceId
| isRunning
| isTracking
| setDeviceName (name : string)
| setDeviceMetadata (metadata : value)
| setTrackingNotificationProperties (title message : string)
| addGeotag (geotagData : value) (expectedLocation : option Coordinates)
| requestPermissionsIfNecessary
| allowMockLocations
| syncDeviceSettings
| start
| stop
| setAvailability (isAvailable : bool)
| getAvailability
| trackingStateChange
| disposeTrackingState
| availabilityStateChange
| disposeAvailabilityState.

(** The static methods of [HyperTrack]. *)
Inductive static_operation : Type :=
| enableDebugLogging
| initialize (publishableKey : string)
| getBlockers.

(** What a method returns to its caller. *)
Inductive result : Type :=
| RVoid
| RPromise (p : promise_ref)
| RObservable (o : Observable).

Definition returning (m : M promise_ref) : M result :=
  p <- m ;; ret (RPromise p).

Definition invoke (this : HyperTrack) (op : operation) : M result :=
  match op with
  | getDeviceId => returning (HyperTrack_getDeviceId this)
  | isRunning => returning (HyperTrack_isRunning this)
  | isTracking => returning (HyperTrack_isTracking this)
  | setDeviceName name => returning (HyperTrack_setDeviceName this name)
  | setDeviceMetadata metadata =>
      returning (HyperTrack_setDeviceMetadata this metadata)
  | setTrackingNotificationProperties title message =>
      returning (HyperTrack_setTrackingNotificationProperties this title message)
  | addGeotag geotagData expectedLocation =>
      returning (HyperTrack_addGeotag this geotagData expectedLocation)
  | requestPermissionsIfNecessary =>
      returning (HyperTrack_requestPermissionsIfNecessary this)
  | allowMockLocations => returning (HyperTrack_allowMockLocations this)
  | syncDeviceSettings => returning (HyperTrack_syncDeviceSettings this)
  | start => returning (HyperTrack_start this)
  | stop => returning (HyperTrack_stop this)
  | setAvailability isAvailable =>
      returning (HyperTrack_setAvailability this isAvailable)
  | getAvailability => returning (HyperTrack_getAvailability this)
  | trackingStateChange => ret (RObservable (HyperTrack_trackingStateChange this))
  | disposeTrackingState => returning (HyperTrack_disposeTrackingState this)
  | availabilityStateChange =>
      ret (RObservable (HyperTrack_availabilityStateChange this))
  | disposeAvailabilityState =>
      returning (HyperTrack_disposeAvailabilityState this)
  end.

Definition invoke_static (op : static_operation) : M result :=
  match op with
  | enableDebugLogging => _ <- HyperTrack_enableDebugLogging ;; ret RVoid
  | initialize publishableKey => returning (HyperTrack_initialize publishableKey)
  | getBlockers => returning HyperTrack_getBlockers
  end.

(** ** What the native layer does *)

Inductive channel : Type := Success | Failure.

Inductive native_event : Type :=
| Fires (c : nat) (ch : channel) (args : list value)
    (* the success or failure callback of native call [c] is invoked *)
| InitializeSettles (pc : nat) (s : settlement HyperTrackCordova)
    (* the promise of plugin call [pc], an [initialize], settles *)
| PluginSettles (pc : nat) (s : settlement value).
    (* the promise of plugin call [pc], any other method, settles *)

Definition invoke_callback (cb : callback) (args : list value) : M unit :=
  match cb with
  | ResolveWithArg p => resolve p (arg0 args)
  | ResolveVoid p => resolve p VUndefined
  | RejectWithArg p => reject p (arg0 args)
  | ObserverNext s => observer_next s (arg0 args)
  | ObserverError s => observer_error s (arg0 args)
  end.

Definition callback_of (ch : channel) (c : native_call) : callback :=
  match ch with
  | Success => nc_success c
  | Failure => nc_failure c
  end.

Definition settled {A} (inj : A -> value) (s : settlement A) : pstate :=
  match s with
  | Fulfil a => Fulfilled (inj a)
  | Reject reason => Rejected reason
  end.

Definition settle_plugin (pc : nat) (st : pstate) : M unit :=
  modify (fun w =>
    match plugin_calls w !! pc with
    | Some c =>
        set_plugin_calls
          (<[pc := mkPluginCall (pc_method c) (pc_args c) st (pc_reactions c)]>) w
    | None => w
    end).

Fixpoint run_reactions (rs : list reaction) (s : settlement HyperTrackCordova)
  : M unit :=
  match rs with
  | [] => ret tt
  | r :: rs' => _ <- run_reaction r s ;; run_reactions rs' s
  end.

Definition native_step (ev : native_event) : M unit :=
  match ev with
  | Fires c ch args => fun w =>
      match native_calls w !! c with
      | Some call => invoke_callback (callback_of ch call) args w
      | None => (Normal tt, w)
      end
  | InitializeSettles pc s => fun w =>
      match plugin_calls w !! pc with
      | Some call =>
          match pc_method call, pc_state call with
          | Plugin_initialize, Pending =>
              (_ <- settle_plugin pc (settled VNative s) ;;
               run_reactions (pc_reactions call) s) w
          | _, _ => (Normal tt, w)
          end
      | None => (Normal tt, w)
      end
  | PluginSettles pc s => fun w =>
      match plugin_calls w !! pc with
      | Some call =>
          match pc_method call, pc_state call with
          | Plugin_initialize, _ => (Normal tt, w)
          | _, Pending => settle_plugin pc (settled id s) w
          | _, _ => (Normal tt, w)
          end
      | None => (Normal tt, w)
      end
  end.

(** ** Histories: what callers and the native layer do, in order *)

Inductive action : Type :=
| Call (this : HyperTrack) (op : operation)
    (* a caller invokes a method; for a stream method this only makes the
       observable *)
| CallStatic (op : static_operation)
| SubscribeTo (this : HyperTrack) (op : operation)
    (* a caller invokes a method and subscribes to the observable returned *)
| Unsubscribe (s : nat)
| Native (ev : native_event).

Definition perform (a : action) : M unit :=
  match a with
  | Call this op => _ <- invoke this op ;; ret tt
  | CallStatic op => _ <- invoke_static op ;; ret tt
  | SubscribeTo this op =>
      r <- invoke this op ;;
      match r with
      | RObservable o => _ <- subscribe o ;; ret tt
      | _ => ret tt
      end
  | Unsubscribe s => unsubscribe s
  | Native ev => native_step ev
  end.

Definition step (w : world) (a : action) : world := exec (perform a) w.

Definition run (t : list action) (w : world) : world := fold_left step t w.

(** ** Observations *)

Definition promise_state (w : world) (r : promise_ref) : option pstate :=
  match r with
  | FacadePromise p => promises w !! p
  | PluginPromise pc => pc_state <$> plugin_calls w !! pc
  end.

Definition stream_events (w : world) (s : nat) : option (list notification) :=
  received <$> subscribers w !! s.

Definition stream_stopped (w : world) (s : nat) : option bool :=
  isStopped <$> subscribers w !! s.

(** ** Vocabulary of the specification *)

(** A number lies in the closed interval from [lo] to [hi]: it is a finite
    number whose value does.  NaN and the infinities lie in no interval. *)
Definition in_interval (lo hi : Z) (x : number) : Prop :=
  match x with
  | Finite q => (inject_Z lo <= q /\ q <= inject_Z hi)%Q
  | _ => False
  end.

(** A number lies below [lo] or above [hi] in the order of the extended
    reals.  NaN is unordered. *)
Definition beyond (lo hi : Z) (x : number) : Prop :=
  match x with
  | NaN => False
  | NegInfinity | PosInfinity => True
  | Finite q => (q < inject_Z lo \/ inject_Z hi < q)%Q
  end.

Definition validation_error : value :=
  VError CoordinatesValidationError
    "latitude and longitude should be of correct valaues".

(** The errors the native layer has supplied in a history: the argument of
    each failure callback it invoked and the reason of each plugin promise
    it rejected. *)
Definition native_error (a : action) : list value :=
  match a with
  | Native (Fires _ Failure args) => [arg0 args]
  | Native (InitializeSettles _ (Reject reason)) => [reason]
  | Native (PluginSettles _ (Reject reason)) => [reason]
  | _ => []
  end.

Definition native_errors (t : list action) : list value :=
  flat_map native_error t.

(** The errors a world shows to callers: the reason of each rejected promise
    and each error notification delivered to a subscriber. *)
Definition rejection (st : pstate) : list value :=
  match st with
  | Rejected reason => [reason]
  | _ => []
  end.

Definition error_of (n : notification) : list value :=
  match n with
  | Error err => [err]
  | Next _ => []
  end.

Definition surfaced_errors (w : world) : list value :=
  flat_map rejection (promises w)
  ++ flat_map (fun c => rejection (pc_state c)) (plugin_calls w)
  ++ flat_map (fun s => flat_map error_of (received s)) (subscribers w).

(** The callbacks of every native call are of the shapes the facade makes:
    a success callback resolves or emits, a failure callback rejects or
    errors. *)
Definition success_shaped (cb : callback) : Prop :=
  match cb with
  | ResolveWithArg _ | ResolveVoid _ | ObserverNext _ => True
  | _ => False
  end.

Definition failure_shaped (cb : callback) : Prop :=
  match cb with
  | RejectWithArg _ | ObserverError _ => True
  | _ => False
  end.

Definition well_formed (w : world) : Prop :=
  Forall (fun c => success_shaped (nc_success c) /\ failure_shaped (nc_failure c))
         (native_calls w).

(** The forwarding table of the instance methods: the native method each
    one calls, the data arguments it passes, and whether its success
    callback hands its argument on to [resolve]. *)
Definition native_method_of (op : operation) : HyperTrackCordova_method :=
  match op with
  | getDeviceId => Cordova_getDeviceId
  | isRunning => Cordova_isRunning
  | isTracking => Cordova_isTracking
  | setDeviceName _ => Cordova_setDeviceName
  | setDeviceMetadata _ => Cordova_setDeviceMetadata
  | setTrackingNotificationProperties _ _ =>
      Cordova_setTrackingNotificationProperties
  | addGeotag _ _ => Cordova_addGeoTag
  | requestPermissionsIfNecessary => Cordova_requestPermissionsIfNecessary
  | allowMockLocations => Cordova_allowMockLocations
  | syncDeviceSettings => Cordova_syncDeviceSettings
  | start => Cordova_start
  | stop => Cordova_stop
  | setAvailability _ => Cordova_setAvailability
  | getAvailability => Cordova_getAvailability
  | trackingStateChange => Cordova_trackingStateChange
  | disposeTrackingState => Cordova_disposeTrackingState
  | availabilityStateChange => Cordova_availabilityStateChange
  | disposeAvailabilityState => Cordova_disposeAvailabilityState
  end.

Definition forwarded_args (op : operation) : list value :=
  match op with
  | setDeviceName name => [VString name]
  | setDeviceMetadata metadata => [metadata]
  | setTrackingNotificationProperties title message =>
      [VString title; VString message]
  | addGeotag geotagData expectedLocation =>
      [geotagData; optional_Coordinates expectedLocation]
  | setAvailability isAvailable => [VBool isAvailable]
  | _ => []
  end.

Definition passes_result (op : operation) : bool :=
  match op with
  | getDeviceId | isRunning | isTracking | getAvailability => true
  | _ => false
  end.

Definition is_stream (op : operation) : bool :=
  match op with
  | trackingStateChange | availabilityStateChange => true
  | _ => false
  end.

(** The call a promise-returning method makes, for the promise [p]. *)
Definition promise_call (this : HyperTrack) (op : operation) (p : nat)
  : native_call :=
  mkNativeCall (cordovaInstanceHandle this) (native_method_of op)
    (forwarded_args op)
    (if passes_result op then ResolveWithArg p else ResolveVoid p)
    (RejectWithArg p).

(** The call a subscription to a stream method makes, for the subscriber
    [s]. *)
Definition stream_call (this : HyperTrack) (op : operation) (s : nat)
  : native_call :=
  mkNativeCall (cordovaInstanceHandle this) (native_method_of op) []
    (ObserverNext s) (ObserverError s).

(** The world right after a subscription to the stream method [op], made
    when [subs] and [ncs] were the subscribers and the native calls, once
    the subscriber has been handed [evs]. *)
Definition subscribed (this : HyperTrack) (op : operation) (ps : list pstate)
    (subs : list subscriber) (ncs : list native_call) (pcs : list plugin_call)
    (evs : list notification) (stopped : bool) : world :=
  mkWorld ps (subs ++ [mkSubscriber evs stopped])
    (ncs ++ [stream_call this op (length subs)]) pcs.

(** Every promise that has settled in [w] is in the same state in [w']. *)
Definition stable (w w' : world) : Prop :=
  forall r st,
    promise_state w r = Some st -> st <> Pending ->
    promise_state w' r = Some st.

(** The world right after [initialize publishableKey] was called in [w]. *)
Definition initializing (publishableKey : string) (w : world) : world :=
  mkWorld (promises w ++ [Pending]) (subscribers w) (native_calls w)
    (plugin_calls w
       ++ [mkPluginCall Plugin_initialize [VString publishableKey] Pending
             [WrapInstanceOrReject (length (promises w))]]).

(** Every error [w'] shows was shown by [w] already or is one of [errs]. *)
Definition grows (errs : list value) (w w' : world) : Prop :=
  forall e, In e (surfaced_errors w') -> In e (surfaced_errors w) \/ In e errs.

(** ** Who may write what

    What a callback or a reaction closes over, and so may write to when it
    runs: a promise or a subscriber. *)
Inductive target : Type :=
| TPromise (p : nat)
| TSubscriber (s : nat).

Definition cb_target (cb : callback) : target :=
  match cb with
  | ResolveWithArg p | ResolveVoid p | RejectWithArg p => TPromise p
  | ObserverNext s | ObserverError s => TSubscriber s
  end.

Definition reaction_target (r : reaction) : target :=
  match r with
  | WrapInstanceOrReject outer => TPromise outer
  end.

(** The target exists in the world. *)
Definition allocated (w : world) (x : target) : Prop :=
  match x with
  | TPromise p => p < length (promises w)
  | TSubscriber s => s < length (subscribers w)
  end.

(** What an action may write to, by what the world has on record. *)
Definition touches (w : world) (a : action) : list target :=
  match a with
  | Native (Fires c ch args) =>
      match native_calls w !! c with
      | Some call => [cb_target (callback_of ch call)]
      | None => []
      end
  | Native (InitializeSettles pc _) =>
      match plugin_calls w !! pc with
      | Some call => map reaction_target (pc_reactions call)
      | None => []
      end
  | Unsubscribe s => [TSubscriber s]
  | _ => []
  end.

(** The calls on native SDK instances an action makes. *)
Definition new_calls (w : world) (a : action) : list native_call :=
  match a with
  | Call this op =>
      if is_stream op then []
      else [promise_call this op (length (promises w))]
  | SubscribeTo this op =>
      if is_stream op then [stream_call this op (length (subscribers w))]
      else [promise_call this op (length (promises w))]
  | _ => []
  end.

(** Whether an action makes a call on a native SDK instance: a call of a
    promise-returning method does, and so does a subscription. *)
Definition calls_native (a : action) : bool :=
  match a with
  | Call _ op => negb (is_stream op)
  | SubscribeTo _ _ => true
  | _ => false
  end.

(** What the records of a world close over: each native call by its
    callbacks, each plugin call by the reactions chained on its promise. *)
Definition call_target (c : native_call) : target := cb_target (nc_success c).

Definition reaction_targets (pcs : list plugin_call) : list target :=
  flat_map (fun c => map reaction_target (pc_reactions c)) pcs.

Definition held_targets (w : world) : list target :=
  map call_target (native_calls w) ++ reaction_targets (plugin_calls w).

(** What the records an action adds close over. *)
Definition new_targets (w : world) (a : action) : list target :=
  map call_target (new_calls w a)
  ++ match a with
     | CallStatic (initialize _) => [TPromise (length (promises w))]
     | _ => []
     end.

(** The two callbacks of a call close over the same thing, nothing on
    record closes over a promise or subscriber that does not exist, and no
    two records close over the same thing. *)
Definition scoped (w : world) : Prop :=
  Forall (fun c => cb_target (nc_failure c) = call_target c) (native_calls w)
  /\ Forall (allocated w) (held_targets w)
  /\ NoDup (held_targets w).

(** The native call [c] alone closes over [x]. *)
Definition sole_owner (w : world) (c : nat) (x : target) : Prop :=
  allocated w x
  /\ (exists call,
        native_calls w !! c = Some call
        /\ cb_target (nc_success call) = x /\ cb_target (nc_failure call) = x)
  /\ (forall c' call',
        native_calls w !! c' = Some call' -> c' <> c ->
        cb_target (nc_success call') <> x /\ cb_target (nc_failure call') <> x)
  /\ (forall pc pcall r,
        plugin_calls w !! pc = Some pcall -> In r (pc_reactions pcall) ->
        reaction_target r <> x).

(** The first invocation of a callback of native call [c] in a history. *)
Fixpoint first_firing (c : nat) (t : list action)
  : option (channel * list value) :=
  match t with
  | [] => None
  | Native (Fires c' ch args) :: t' =>
      if Nat.eqb c' c then Some (ch, args) else first_firing c t'
  | _ :: t' => first_firing c t'
  end.

(** What a callback of the call of [op] makes of its pending promise. *)
Definition outcome (op : operation) (ch : channel) (args : list value) : pstate :=
  match ch with
  | Success => Fulfilled (if passes_result op then arg0 args else VUndefined)
  | Failure => Rejected (arg0 args)
  end.

(** What one action of a history means to the subscriber [s] of native call
    [c]: only the callbacks of [c] and the consumer's own unsubscription
    count, and only while the subscriber is open. *)
Definition receive (c s : nat) (sub : subscriber) (a : action) : subscriber :=
  match a with
  | Native (Fires c' ch args) =>
      if Nat.eqb c' c && negb (isStopped sub)
      then match ch with
           | Success => mkSubscriber (received sub ++ [Next (arg0 args)]) false
           | Failure => mkSubscriber (received sub ++ [Error (arg0 args)]) true
           end
      else sub
  | Unsubscribe s' =>
      if Nat.eqb s' s then mkSubscriber (received sub) true else sub
  | _ => sub
  end.

(** The first settlement of the promise of plugin call [pc], an
    [initialize], in a history. *)
Fixpoint first_settlement (pc : nat) (t : list action)
  : option (settlement HyperTrackCordova) :=
  match t with
  | [] => None
  | Native (InitializeSettles pc' s) :: t' =>
      if Nat.eqb pc' pc then Some s else first_settlement pc t'
  | _ :: t' => first_settlement pc t'
  end.

(** What [initialize] makes of the settlement of the plugin's promise. *)
Definition wrapped (s : settlement HyperTrackCordova) : pstate :=
  settled (fun cordovaInstance => VHyperTrack (new_HyperTrack cordovaInstance)) s.

(** ** A native method that throws

    [call_native] is a call that returns.  The call expression
    [this.cordovaInstanceHandle.m(...)] can also throw before it returns:
    the native method throws, or the instance has no such method and the
    call itself throws a [TypeError].  What a call does is up to the native
    layer, by the calls it has received so far and the call at hand. *)
Definition native_behaviour : Type :=
  list native_call -> native_call -> option value.

Definition returns_normally : native_behaviour := fun _ _ => None.

(** The call is put on record either way: a native method that has thrown
    may still hold on to the callbacks it was given. *)
Definition call_native_with (b : native_behaviour) (h : HyperTrackCordova)
    (m : HyperTrackCordova_method) (args : list value)
    (success failure : callback) : M unit :=
  fun w =>
    match b (native_calls w) (mkNativeCall h m args success failure) with
    | Some exn => (Throw exn, exec (call_native h m args success failure) w)
    | None => call_native h m args success failure w
    end.

(** The instance methods over such a native layer.  All sixteen
    promise-returning methods are [new Promise((resolve, reject) => {
    this.cordovaInstanceHandle.m(args, success, (err) => reject(err)) })]
    and both stream methods are [new Observable((observer) => {
    this.cordovaInstanceHandle.m((res) => { observer.next(res) },
    (err) => { observer.error(err) }) })], with the native method, the
    arguments and the success callback of the forwarding table. *)
Definition invoke_with (b : native_behaviour) (this : HyperTrack)
    (op : operation) : M result :=
  if is_stream op
  then ret (RObservable
              (new_Observable (fun observer =>
                 call_native_with b (cordovaInstanceHandle this)
                   (native_method_of op) []
                   (ObserverNext observer) (ObserverError observer))))
  else
    p <- new_Promise (fun p =>
           call_native_with b (cordovaInstanceHandle this)
             (native_method_of op) (forwarded_args op)
             (if passes_result op then ResolveWithArg p else ResolveVoid p)
             (RejectWithArg p)) ;;
    ret (RPromise (FacadePromise p)).

Definition perform_with (b : native_behaviour) (a : action) : M unit :=
  match a with
  | Call this op => _ <- invoke_with b this op ;; ret tt
  | SubscribeTo this op =>
      r <- invoke_with b this op ;;
      match r with
      | RObservable o => _ <- subscribe o ;; ret tt
      | _ => ret tt
      end
  | _ => perform a
  end.

Definition step_with (b : native_behaviour) (w : world) (a : action) : world :=
  exec (perform_with b a) w.

Definition run_with (b : native_behaviour) (t : list action) (w : world)
  : world :=
  fold_left (step_with b) t w.

(** The errors the native methods called by an action throw, and those
    thrown in the course of a history. *)
Definition thrown_by (b : native_behaviour) (w : world) (a : action)
  : list value :=
  flat_map (fun c => match b (native_calls w) c with
                     | Some exn => [exn]
                     | None => []
                     end)
           (new_calls w a).

Fixpoint thrown_in (b : native_behaviour) (t : list action) (w : world)
  : list value :=
  match t with
  | [] => []
  | a :: t' => thrown_by b w a ++ thrown_in b t' (step_with b w a)
  end.

(** A native layer all of whose methods throw [exn]. *)
Definition always_throws (exn : value) : native_behaviour := fun _ _ => Some exn.

(** * Properties *)

(** ** The model at work *)

Example getDeviceId_resolves_once :
  run [Call (new_HyperTrack 7) getDeviceId;
       Native (Fires 0 Success [VString "device-123"]);
       Native (Fires 0 Failure [VError Error_ "late"])]
    empty_world
  = mkWorld [Fulfilled (VString "device-123")] []
      [mkNativeCall 7 Cordova_getDeviceId [] (ResolveWithArg 0) (RejectWithArg 0)]
      [].
Proof. reflexivity. Qed.

Example addGeotag_forwards_arguments :
  native_calls
    (run [Call (new_HyperTrack 7)
            (addGeotag (VObject [("order", VString "42")]) (Some mkCoordinates))]
       empty_world)
  = [mkNativeCall 7 Cordova_addGeoTag
       [VObject [("order", VString "42")]; VCoordinates mkCoordinates]
       (ResolveVoid 0) (RejectWithArg 0)].
Proof. reflexivity. Qed.

Example two_subscriptions_two_native_calls :
  let this := new_HyperTrack 7 in
  let w := run [SubscribeTo this availabilityStateChange;
                SubscribeTo this availabilityStateChange;
                Native (Fires 1 Success [VString "available"]);
                Native (Fires 0 Failure [VError Error_ "lost"]);
                Native (Fires 0 Success [VString "unavailable"])]
             empty_world in
  subscribers w
  = [mkSubscriber [Error (VError Error_ "lost")] true;
     mkSubscriber [Next (VString "available")] false]
  /\ length (native_calls w) = 2.
Proof. split; reflexivity. Qed.

Example initialize_rejected :
  promises
    (run [CallStatic (initialize "pk_live_abc");
          Native (InitializeSettles 0 (Reject (VError Error_ "invalid key")))]
       empty_world)
  = [Rejected (VError Error_ "invalid key")].
Proof. reflexivity. Qed.

Example Coordinates_range :
  eval (new_Coordinates (num 90) (num (-180))) empty_world = Normal mkCoordinates
  /\ eval (new_Coordinates (Finite (901 # 10)) (num 0)) empty_world
     = Throw validation_error
  /\ eval (new_Coordinates (num 0) NegInfinity) empty_world
     = Throw validation_error.
Proof. repeat split. Qed.

(** ** Comparisons *)

Lemma Qltb_lt (x y : Q) : Qltb x y = true <-> (x < y)%Q.
Proof. unfold Qltb, Qlt. apply Z.ltb_lt. Qed.

Lemma js_lt_finite (q : Q) (z : Z) :
  js_lt (Finite q) (num z) = true <-> (q < inject_Z z)%Q.
Proof. apply Qltb_lt. Qed.

Lemma js_gt_finite (q : Q) (z : Z) :
  js_gt (Finite q) (num z) = true <-> (inject_Z z < q)%Q.
Proof. apply Qltb_lt. Qed.

(** The range test of one coordinate decides [beyond]. *)
Lemma range_test_beyond (lo hi : Z) (x : number) :
  js_lt x (num lo) || js_gt x (num hi) = true <-> beyond lo hi x.
Proof.
  destruct x as [| |q|]; simpl; try (split; [discriminate | tauto]);
    try (split; [tauto | reflexivity]).
  rewrite orb_true_iff, js_lt_finite, js_gt_finite. tauto.
Qed.

(** Inside, beyond, and NaN are the three cases of a coordinate. *)
Lemma interval_trichotomy (lo hi : Z) (x : number) :
  in_interval lo hi x \/ beyond lo hi x \/ x = NaN.
Proof.
  destruct x as [| |q|]; simpl; auto.
  destruct (Qlt_le_dec q (inject_Z lo)); auto.
  destruct (Qlt_le_dec (inject_Z hi) q); auto.
Qed.

Lemma in_interval_not_beyond (lo hi : Z) (x : number) :
  in_interval lo hi x -> ~ beyond lo hi x.
Proof.
  destruct x as [| |q|]; simpl; try tauto.
  intros [H1 H2] [H | H].
  - exact (Qlt_not_le _ _ H H1).
  - exact (Qlt_not_le _ _ H H2).
Qed.

(** ** The [Coordinates] constructor *)

Lemma new_Coordinates_throws_iff (latitude longitude : number) (w : world) :
  new_Coordinates latitude longitude w = (Throw validation_error, w)
  <-> beyond (-90) 90 latitude \/ beyond (-180) 180 longitude.
Proof.
  rewrite <- !range_test_beyond. unfold new_Coordinates.
  destruct (js_lt latitude _ || js_gt latitude _ || js_lt longitude _
            || js_gt longitude _) eqn:E.
  - split; [intros _ | reflexivity].
    rewrite !orb_true_iff in E. rewrite !orb_true_iff. tauto.
  - split; [discriminate |].
    rewrite !orb_false_iff in E. destruct E as [[[E1 E2] E3] E4].
    rewrite E1, E2, E3, E4. simpl. intros [?|?]; discriminate.
Qed.

Lemma new_Coordinates_total (latitude longitude : number) (w : world) :
  new_Coordinates latitude longitude w = (Throw validation_error, w)
  \/ new_Coordinates latitude longitude w = (Normal mkCoordinates, w).
Proof.
  unfold new_Coordinates.
  destruct (js_lt latitude _ || js_gt latitude _ || js_lt longitude _
            || js_gt longitude _); [left | right]; reflexivity.
Qed.

Lemma new_Coordinates_succeeds_iff (latitude longitude : number) (w : world) :
  new_Coordinates latitude longitude w = (Normal mkCoordinates, w)
  <-> ~ beyond (-90) 90 latitude /\ ~ beyond (-180) 180 longitude.
Proof.
  pose proof (new_Coordinates_throws_iff latitude longitude w) as T.
  destruct (new_Coordinates_total latitude longitude w) as [E | E].
  - split.
    + rewrite E. discriminate.
    + intros [H1 H2]. apply T in E. tauto.
  - split; [intros _ | intros _; exact E].
    assert (~ (beyond (-90) 90 latitude \/ beyond (-180) 180 longitude)) as N.
    { intros B. apply T in B. rewrite E in B. discriminate. }
    tauto.
Qed.

(** ** Lists indexed by allocation order *)

Lemma lookup_fresh {A} (l : list A) (x : A) : (l ++ [x]) !! length l = Some x.
Proof. apply list_lookup_middle. reflexivity. Qed.

Lemma insert_fresh {A} (l : list A) (x y : A) :
  <[length l := y]> (l ++ [x]) = l ++ [y].
Proof.
  replace (length l) with (length l + 0) by lia.
  rewrite insert_app_r. reflexivity.
Qed.

(** ** What a method call does to the world *)

Lemma invoke_promise_op (this : HyperTrack) (op : operation) (w : world) :
  is_stream op = false ->
  invoke this op w =
    (Normal (RPromise (FacadePromise (length (promises w)))),
     mkWorld (promises w ++ [Pending]) (subscribers w)
       (native_calls w ++ [promise_call this op (length (promises w))])
       (plugin_calls w)).
Proof. destruct op; intros E; try discriminate E; reflexivity. Qed.

Lemma invoke_stream_op (this : HyperTrack) (op : operation) (w : world) :
  is_stream op = true ->
  exists o, invoke this op w = (Normal (RObservable o), w)
    /\ forall w', subscribe o w' =
          (Normal (length (subscribers w')),
           subscribed this op (promises w') (subscribers w') (native_calls w')
             (plugin_calls w') [] false).
Proof.
  destruct op; intros E; try discriminate E;
    (eexists; split; [reflexivity | intros w'; reflexivity]).
Qed.

Lemma is_stream_true (op : operation) :
  is_stream op = true <-> op = trackingStateChange \/ op = availabilityStateChange.
Proof.
  split.
  - destruct op; intros E; try discriminate E; auto.
  - intros [-> | ->]; reflexivity.
Qed.

Lemma is_stream_false (op : operation) :
  is_stream op = false <->
  op <> trackingStateChange /\ op <> availabilityStateChange.
Proof.
  split.
  - intros E; split; intros ->; discriminate E.
  - intros [H1 H2]. destruct op; try reflexivity; congruence.
Qed.

(** ** What a caller's action comes to *)

Lemma exec_perform_call (this : HyperTrack) (op : operation) (w : world) :
  step w (Call this op) = exec (invoke this op) w.
Proof.
  unfold step, exec, perform, bind.
  destruct (invoke this op w) as [[r | exn] w'] eqn:E; reflexivity.
Qed.

Lemma exec_perform_static (op : static_operation) (w : world) :
  step w (CallStatic op) = exec (invoke_static op) w.
Proof.
  unfold step, exec, perform, bind.
  destruct (invoke_static op w) as [[r | exn] w'] eqn:E; reflexivity.
Qed.

Lemma exec_perform_subscribe (this : HyperTrack) (op : operation) (w : world) :
  step w (SubscribeTo this op)
  = if is_stream op
    then subscribed this op (promises w) (subscribers w) (native_calls w)
           (plugin_calls w) [] false
    else exec (invoke this op) w.
Proof.
  unfold step, exec, perform, bind. destruct (is_stream op) eqn:S.
  - destruct (invoke_stream_op this op w S) as (o & E & Sub).
    rewrite E, Sub. reflexivity.
  - rewrite (invoke_promise_op this op w S). reflexivity.
Qed.

(** ** Settling the promise of a call *)

Lemma settle_fresh (ps : list pstate) (subs : list subscriber)
    (ncs : list native_call) (pcs : list plugin_call) (st : pstate) :
  settle (length ps) st (mkWorld (ps ++ [Pending]) subs ncs pcs)
  = (Normal tt, mkWorld (ps ++ [st]) subs ncs pcs).
Proof.
  unfold settle, modify, set_promises. simpl.
  rewrite lookup_fresh, insert_fresh. reflexivity.
Qed.

Lemma fires_fresh_promise (this : HyperTrack) (op : operation) (ch : channel)
    (args : list value) (ps : list pstate) (subs : list subscriber)
    (ncs : list native_call) (pcs : list plugin_call) :
  native_step (Fires (length ncs) ch args)
    (mkWorld (ps ++ [Pending]) subs
       (ncs ++ [promise_call this op (length ps)]) pcs)
  = (Normal tt,
     mkWorld
       (ps ++ [match ch with
               | Success =>
                   Fulfilled (if passes_result op then arg0 args else VUndefined)
               | Failure => Rejected (arg0 args)
               end])
       subs (ncs ++ [promise_call this op (length ps)]) pcs).
Proof.
  unfold native_step. cbn [native_calls]. rewrite lookup_fresh.
  destruct ch; cbn [callback_of promise_call nc_success nc_failure].
  - destruct (passes_result op); apply settle_fresh.
  - apply settle_fresh.
Qed.

(** ** Promise-returning methods *)

(** C2, as amended.  Each of the sixteen methods other than the two stream
    methods, with any arguments and in any world, returns a promise.  When
    the native layer invokes the success callback of the call the method
    made, that promise is fulfilled: with exactly the first argument of the
    callback for [getDeviceId], [isRunning], [isTracking] and
    [getAvailability], and with [undefined], whatever the callback was
    passed, for the twelve methods whose success callback takes no
    parameter.  When the native layer invokes the failure callback instead,
    the promise is rejected with exactly the error passed.  All that has
    changed then is that promise and the record of the one call, made on
    the wrapped SDK instance with the caller's arguments. *)
Theorem promise_follows_first_callback (this : HyperTrack) (op : operation)
    (w : world) (ch : channel) (args : list value) :
  op <> trackingStateChange -> op <> availabilityStateChange ->
  let p := FacadePromise (length (promises w)) in
  let outcome :=
    match ch with
    | Success =>
        Fulfilled
          match op with
          | getDeviceId | isRunning | isTracking | getAvailability => arg0 args
          | _ => VUndefined
          end
    | Failure => Rejected (arg0 args)
    end in
  let w1 := exec (invoke this op) w in
  let w2 := exec (native_step (Fires (length (native_calls w)) ch args)) w1 in
  eval (invoke this op) w = Normal (RPromise p)
  /\ promise_state w2 p = Some outcome
  /\ w2 = mkWorld (promises w ++ [outcome]) (subscribers w)
            (native_calls w ++ [promise_call this op (length (promises w))])
            (plugin_calls w).
Proof.
  intros N1 N2 p outcome w1 w2.
  assert (is_stream op = false) as S by (apply is_stream_false; auto).
  pose proof (invoke_promise_op this op w S) as H.
  assert (outcome =
            match ch with
            | Success =>
                Fulfilled (if passes_result op then arg0 args else VUndefined)
            | Failure => Rejected (arg0 args)
            end) as O.
  { subst outcome. destruct ch; [destruct op |]; reflexivity. }
  assert (w2 = mkWorld (promises w ++ [outcome]) (subscribers w)
                 (native_calls w ++ [promise_call this op (length (promises w))])
                 (plugin_calls w)) as W.
  { subst w2 w1. unfold exec. rewrite H. cbn [snd].
    rewrite fires_fresh_promise, O. reflexivity. }
  split; [unfold eval; rewrite H; reflexivity |].
  split; [| exact W].
  rewrite W. apply lookup_fresh.
Qed.

Lemma promise_follows_first_callback_witness :
  (eval (invoke (new_HyperTrack 0) (setDeviceName "Elvis Ionic")) empty_world
   = Normal (RPromise (FacadePromise 0))
   /\ promise_state
        (exec (native_step (Fires 0 Failure [VError Error_ "no permission"]))
           (exec (invoke (new_HyperTrack 0) (setDeviceName "Elvis Ionic"))
              empty_world))
        (FacadePromise 0)
      = Some (Rejected (VError Error_ "no permission")))
  /\ (eval (invoke (new_HyperTrack 0) getAvailability) empty_world
      = Normal (RPromise (FacadePromise 0))
      /\ promise_state
           (exec (native_step (Fires 0 Success [VString "available"]))
              (exec (invoke (new_HyperTrack 0) getAvailability) empty_world))
           (FacadePromise 0)
         = Some (Fulfilled (VString "available"))).
Proof.
  split.
  - pose proof (promise_follows_first_callback (new_HyperTrack 0)
                  (setDeviceName "Elvis Ionic") empty_world Failure
                  [VError Error_ "no permission"]) as H.
    cbv zeta in H. destruct H as (H1 & H2 & _); [discriminate | discriminate |].
    split; [exact H1 | exact H2].
  - pose proof (promise_follows_first_callback (new_HyperTrack 0)
                  getAvailability empty_world Success
                  [VString "available"]) as H.
    cbv zeta in H. destruct H as (H1 & H2 & _); [discriminate | discriminate |].
    split; [exact H1 | exact H2].
Defined.

(** C2, as stated, fails: [setDeviceName] resolves with [undefined], not with
    the value "OK" the native layer passed to its success callback. *)
Lemma setDeviceName_drops_success_value :
  eval (invoke (new_HyperTrack 0) (setDeviceName "Elvis Ionic")) empty_world
  = Normal (RPromise (FacadePromise 0))
  /\ promise_state
       (exec (native_step (Fires 0 Success [VString "OK"]))
          (exec (invoke (new_HyperTrack 0) (setDeviceName "Elvis Ionic"))
             empty_world))
       (FacadePromise 0)
     = Some (Fulfilled VUndefined)
  /\ Fulfilled VUndefined <> Fulfilled (VString "OK").
Proof. repeat split. discriminate. Qed.

(** ** Stream-returning methods *)

Section Subscription.

Variables (this : HyperTrack) (op : operation).
Variables (ps : list pstate) (subs : list subscriber).
Variables (ncs : list native_call) (pcs : list plugin_call).

Lemma fires_next (evs : list notification) (args : list value) :
  step (subscribed this op ps subs ncs pcs evs false)
    (Native (Fires (length ncs) Success args))
  = subscribed this op ps subs ncs pcs (evs ++ [Next (arg0 args)]) false.
Proof.
  unfold step, exec, perform, native_step, subscribed.
  cbn [native_calls]. rewrite lookup_fresh.
  cbn [callback_of stream_call nc_success invoke_callback].
  unfold observer_next, modify, set_subscribers. cbn.
  rewrite lookup_fresh. cbn. rewrite insert_fresh. reflexivity.
Qed.

Lemma fires_error (evs : list notification) (args : list value) :
  step (subscribed this op ps subs ncs pcs evs false)
    (Native (Fires (length ncs) Failure args))
  = subscribed this op ps subs ncs pcs (evs ++ [Error (arg0 args)]) true.
Proof.
  unfold step, exec, perform, native_step, subscribed.
  cbn [native_calls]. rewrite lookup_fresh.
  cbn [callback_of stream_call nc_failure invoke_callback].
  unfold observer_error, modify, set_subscribers. cbn.
  rewrite lookup_fresh. cbn. rewrite insert_fresh. reflexivity.
Qed.

Lemma fires_stopped (evs : list notification) (ch : channel)
    (args : list value) :
  step (subscribed this op ps subs ncs pcs evs true) (Native (Fires (length ncs) ch args))
  = subscribed this op ps subs ncs pcs evs true.
Proof.
  unfold step, exec, perform, native_step, subscribed.
  cbn [native_calls]. rewrite lookup_fresh.
  destruct ch; cbn [callback_of stream_call nc_success nc_failure invoke_callback];
    unfold observer_next, observer_error, modify; cbn;
    rewrite lookup_fresh; reflexivity.
Qed.

Lemma fires_all_next (fires : list (list value)) (evs : list notification) :
  run (map (fun args => Native (Fires (length ncs) Success args)) fires)
      (subscribed this op ps subs ncs pcs evs false)
  = subscribed this op ps subs ncs pcs (evs ++ map (fun args => Next (arg0 args)) fires) false.
Proof.
  revert evs. induction fires as [| args fires IH]; intros evs.
  - cbn. rewrite app_nil_r. reflexivity.
  - cbn [map run fold_left]. rewrite fires_next.
    change (fold_left step ?t ?w) with (run t w). rewrite IH.
    rewrite <- app_assoc. reflexivity.
Qed.

End Subscription.

Lemma returns_observable_is_stream (this : HyperTrack) (op : operation)
    (w w' : world) (o : Observable) :
  invoke this op w = (Normal (RObservable o), w') -> is_stream op = true.
Proof. destruct op; intros H; try reflexivity; discriminate H. Qed.

Lemma subscribe_stream (this : HyperTrack) (op : operation) (w w' w1 : world)
    (o : Observable) :
  invoke this op w = (Normal (RObservable o), w') ->
  w' = w
  /\ subscribe o w1 =
       (Normal (length (subscribers w1)),
        subscribed this op (promises w1) (subscribers w1) (native_calls w1)
          (plugin_calls w1) [] false).
Proof.
  intros H.
  destruct (invoke_stream_op this op w (returns_observable_is_stream _ _ _ _ _ H))
    as (o' & E & S).
  rewrite E in H. injection H as <- <-. split; [reflexivity | apply S].
Qed.

(** C3.  Each of the two stream methods, [trackingStateChange] and
    [availabilityStateChange], returns an observable, in any world and
    without doing anything else.  Take a subscription to it.  Whatever
    finite sequence of invocations of the success callback the native layer
    makes, the subscriber is handed exactly one event per invocation,
    carrying the value passed, in the order of the invocations, and the
    stream stays open.  An invocation of the failure callback then hands the
    subscriber exactly the error passed and terminates the stream: no later
    invocation of either callback delivers anything. *)
Theorem stream_delivers_in_order (this : HyperTrack) (op : operation)
    (w : world) (fires : list (list value)) (err : list value) :
  op = trackingStateChange \/ op = availabilityStateChange ->
  let s := length (subscribers w) in
  let c := length (native_calls w) in
  let w1 := step w (SubscribeTo this op) in
  let w2 := run (map (fun args => Native (Fires c Success args)) fires) w1 in
  let w3 := step w2 (Native (Fires c Failure err)) in
  (exists o,
      invoke this op w = (Normal (RObservable o), w)
      /\ subscribe o w = (Normal s, w1))
  /\ stream_events w1 s = Some []
  /\ stream_events w2 s = Some (map (fun args => Next (arg0 args)) fires)
  /\ stream_stopped w2 s = Some false
  /\ stream_events w3 s
     = Some (map (fun args => Next (arg0 args)) fires ++ [Error (arg0 err)])
  /\ stream_stopped w3 s = Some true
  /\ forall ch args, step w3 (Native (Fires c ch args)) = w3.
Proof.
  intros Hs s c w1 w2 w3.
  assert (is_stream op = true) as S by (apply is_stream_true, Hs).
  destruct (invoke_stream_op this op w S) as (o & E & Sub).
  assert (w1 = subscribed this op (promises w) (subscribers w) (native_calls w)
                 (plugin_calls w) [] false) as E1.
  { subst w1. rewrite exec_perform_subscribe, S. reflexivity. }
  assert (w2 = subscribed this op (promises w) (subscribers w) (native_calls w)
                 (plugin_calls w) (map (fun args => Next (arg0 args)) fires)
                 false) as E2.
  { subst w2 c. rewrite E1, fires_all_next. reflexivity. }
  assert (w3 = subscribed this op (promises w) (subscribers w) (native_calls w)
                 (plugin_calls w)
                 (map (fun args => Next (arg0 args)) fires ++ [Error (arg0 err)])
                 true) as E3.
  { subst w3 c. rewrite E2. apply fires_error. }
  split.
  { exists o. split; [exact E |]. rewrite Sub, E1. reflexivity. }
  rewrite E3, E2, E1. unfold stream_events, stream_stopped, subscribed.
  cbn [subscribers]. subst s. rewrite !lookup_fresh.
  repeat split. intros ch args. apply fires_stopped.
Qed.

Lemma stream_delivers_in_order_witness :
  stream_events
    (step
       (run [Native (Fires 0 Success [VBool true]);
             Native (Fires 0 Success [VBool false])]
          (step empty_world (SubscribeTo (new_HyperTrack 0) trackingStateChange)))
       (Native (Fires 0 Failure [VError Error_ "lost"])))
    0
  = Some [Next (VBool true); Next (VBool false); Error (VError Error_ "lost")]
  /\ stream_events
       (step
          (run [Native (Fires 0 Success [VString "available"])]
             (step empty_world
                (SubscribeTo (new_HyperTrack 0) availabilityStateChange)))
          (Native (Fires 0 Failure [VError Error_ "gone"])))
       0
     = Some [Next (VString "available"); Error (VError Error_ "gone")].
Proof.
  split.
  - apply (stream_delivers_in_order (new_HyperTrack 0) trackingStateChange
             empty_world [[VBool true]; [VBool false]] [VError Error_ "lost"]).
    left. reflexivity.
  - apply (stream_delivers_in_order (new_HyperTrack 0) availabilityStateChange
             empty_world [[VString "available"]] [VError Error_ "gone"]).
    right. reflexivity.
Defined.

(** ** Disposal *)

Lemma promise_op_then_fires (this : HyperTrack) (op : operation) (w : world)
    (ch : channel) (args : list value) :
  is_stream op = false ->
  let w1 := exec (invoke this op) w in
  native_calls w1
  = native_calls w ++ [promise_call this op (length (promises w))]
  /\ subscribers w1 = subscribers w
  /\ native_calls (step w1 (Native (Fires (length (native_calls w)) ch args)))
     = native_calls w1
  /\ subscribers (step w1 (Native (Fires (length (native_calls w)) ch args)))
     = subscribers w.
Proof.
  intros S w1. subst w1. unfold step, exec, perform.
  rewrite (invoke_promise_op this op w S). cbn [snd].
  rewrite fires_fresh_promise. repeat split.
Qed.

(** C4.  Invoking the disposal method paired with a stream method
    ([disposeTrackingState] for [trackingStateChange],
    [disposeAvailabilityState] for [availabilityStateChange]) makes exactly
    one call of the corresponding native disposal method, on the wrapped SDK
    instance and without data arguments, and hands no subscriber of any
    stream an event; nor does the native layer's answer to that call,
    through either callback. *)
Theorem disposal_calls_native_once (this : HyperTrack) (w : world)
    (ch : channel) (args : list value) :
  let p := length (promises w) in
  let answer := Native (Fires (length (native_calls w)) ch args) in
  let disposed_tracking := exec (invoke this disposeTrackingState) w in
  let disposed_availability := exec (invoke this disposeAvailabilityState) w in
  (native_calls disposed_tracking
   = native_calls w
       ++ [mkNativeCall (cordovaInstanceHandle this)
             Cordova_disposeTrackingState [] (ResolveVoid p) (RejectWithArg p)]
   /\ subscribers disposed_tracking = subscribers w
   /\ native_calls (step disposed_tracking answer)
      = native_calls disposed_tracking
   /\ subscribers (step disposed_tracking answer) = subscribers w)
  /\ (native_calls disposed_availability
      = native_calls w
          ++ [mkNativeCall (cordovaInstanceHandle this)
                Cordova_disposeAvailabilityState [] (ResolveVoid p)
                (RejectWithArg p)]
      /\ subscribers disposed_availability = subscribers w
      /\ native_calls (step disposed_availability answer)
         = native_calls disposed_availability
      /\ subscribers (step disposed_availability answer) = subscribers w).
Proof.
  split.
  - exact (promise_op_then_fires this disposeTrackingState w ch args eq_refl).
  - exact (promise_op_then_fires this disposeAvailabilityState w ch args eq_refl).
Qed.

(** ** The static methods *)

Lemma invoke_initialize (publishableKey : string) (w : world) :
  invoke_static (initialize publishableKey) w
  = (Normal (RPromise (FacadePromise (length (promises w)))),
     initializing publishableKey w).
Proof.
  unfold invoke_static, returning, HyperTrack_initialize, new_Promise, bind,
    HyperTrackPlugin_initialize, Cordova, promise_chain, modify, ret,
    set_plugin_calls, set_promises, initializing.
  cbn. rewrite lookup_fresh. cbn. rewrite insert_fresh. reflexivity.
Qed.

Lemma invoke_getBlockers (w : world) :
  invoke_static getBlockers w
  = (Normal (RPromise (PluginPromise (length (plugin_calls w)))),
     mkWorld (promises w) (subscribers w) (native_calls w)
       (plugin_calls w ++ [mkPluginCall Plugin_getBlockers [] Pending []])).
Proof. reflexivity. Qed.

Lemma invoke_enableDebugLogging (w : world) :
  invoke_static enableDebugLogging w
  = (Normal RVoid,
     mkWorld (promises w) (subscribers w) (native_calls w)
       (plugin_calls w
          ++ [mkPluginCall Plugin_enableDebugLogging [] Pending []])).
Proof. reflexivity. Qed.

Lemma run_reaction_fulfil (outer : nat) (h : HyperTrackCordova) (w : world) :
  run_reaction (WrapInstanceOrReject outer) (Fulfil h) w
  = resolve outer (VHyperTrack (new_HyperTrack h)) w.
Proof. reflexivity. Qed.

Lemma run_reaction_reject (outer : nat) (reason : value) (w : world) :
  run_reaction (WrapInstanceOrReject outer) (Reject reason) w
  = reject outer reason w.
Proof. reflexivity. Qed.

(** What a settled plugin promise makes of the promise a reaction closes
    over. *)
Lemma run_reaction_settle (r : reaction) (s : settlement HyperTrackCordova)
    (w : world) :
  run_reaction r s w
  = match r with
    | WrapInstanceOrReject outer =>
        settle outer (settled (fun h => VHyperTrack (new_HyperTrack h)) s) w
    end.
Proof. destruct r, s; reflexivity. Qed.

(** ** Settled promises stay as they are *)

Lemma stable_refl (w : world) : stable w w.
Proof. intros r st H _. exact H. Qed.

Lemma stable_trans (w1 w2 w3 : world) :
  stable w1 w2 -> stable w2 w3 -> stable w1 w3.
Proof. intros H12 H23 r st H N. apply H23, N. apply H12, N. exact H. Qed.

Lemma stable_extend (w w' : world) (ps : list pstate) (pcs : list plugin_call) :
  promises w' = promises w ++ ps ->
  plugin_calls w' = plugin_calls w ++ pcs ->
  stable w w'.
Proof.
  intros E1 E2 [p | pc] st H _; unfold promise_state in *.
  - rewrite E1. apply lookup_app_l_Some. exact H.
  - rewrite E2. destruct (plugin_calls w !! pc) as [c |] eqn:L; [| discriminate H].
    rewrite (lookup_app_l_Some _ _ _ _ L). exact H.
Qed.

Lemma stable_same (w w' : world) :
  promises w' = promises w -> plugin_calls w' = plugin_calls w -> stable w w'.
Proof.
  intros E1 E2. apply (stable_extend w w' [] []); rewrite app_nil_r; assumption.
Qed.

Lemma stable_settle (p : nat) (st : pstate) (w : world) :
  stable w (exec (settle p st) w).
Proof.
  unfold exec, settle, modify. cbn [snd].
  destruct (promises w !! p) as [[| v | e] |] eqn:L; try apply stable_refl.
  intros [q | pc] st' H N; unfold promise_state in *; cbn.
  - destruct (decide (p = q)) as [-> | D].
    + rewrite L in H. congruence.
    + rewrite list_lookup_insert_ne by exact D. exact H.
  - exact H.
Qed.

Lemma stable_settle_plugin (pc : nat) (st : pstate) (w : world) (c : plugin_call) :
  plugin_calls w !! pc = Some c -> pc_state c = Pending ->
  stable w (exec (settle_plugin pc st) w).
Proof.
  intros L P. unfold exec, settle_plugin, modify. cbn [snd]. rewrite L.
  intros [q | pc'] st' H N; unfold promise_state in *; cbn.
  - exact H.
  - destruct (decide (pc = pc')) as [<- | D].
    + rewrite L in H. cbn in H. congruence.
    + rewrite list_lookup_insert_ne by exact D. exact H.
Qed.

Lemma run_reactions_cons (r : reaction) (rs : list reaction)
    (s : settlement HyperTrackCordova) (w : world) :
  run_reactions (r :: rs) s w = run_reactions rs s (exec (run_reaction r s) w).
Proof. destruct r, s; reflexivity. Qed.

Lemma run_reactions_stable (rs : list reaction)
    (s : settlement HyperTrackCordova) (w : world) :
  fst (run_reactions rs s w) = Normal tt /\ stable w (exec (run_reactions rs s) w).
Proof.
  revert w. induction rs as [| r rs IH]; intros w.
  - split; [reflexivity | apply stable_refl].
  - unfold exec at 1. rewrite run_reactions_cons.
    destruct (IH (exec (run_reaction r s) w)) as [N S].
    split; [exact N |].
    eapply stable_trans; [| exact S].
    unfold exec at 1. rewrite run_reaction_settle. destruct r as [outer].
    apply stable_settle.
Qed.

Lemma stable_invoke_callback (cb : callback) (args : list value) (w : world) :
  stable w (exec (invoke_callback cb args) w).
Proof.
  destruct cb; cbn [invoke_callback]; try apply stable_settle;
    unfold exec, observer_next, observer_error, modify; cbn [snd];
    destruct (subscribers w !! s) as [sub |]; try apply stable_refl;
    destruct (isStopped sub); try apply stable_refl;
    apply stable_same; reflexivity.
Qed.

Lemma stable_native_step (ev : native_event) (w : world) :
  stable w (exec (native_step ev) w).
Proof.
  destruct ev as [c ch args | pc s | pc s]; unfold exec, native_step.
  - destruct (native_calls w !! c); [apply stable_invoke_callback | apply stable_refl].
  - destruct (plugin_calls w !! pc) as [call |] eqn:L; [| apply stable_refl].
    destruct (pc_method call); try apply stable_refl.
    destruct (pc_state call) eqn:P; try apply stable_refl.
    change (stable w
              (exec (run_reactions (pc_reactions call) s)
                 (exec (settle_plugin pc (settled VNative s)) w))).
    eapply stable_trans; [eapply stable_settle_plugin; eassumption |].
    apply run_reactions_stable.
  - destruct (plugin_calls w !! pc) as [call |] eqn:L; [| apply stable_refl].
    destruct (pc_method call); try apply stable_refl;
      destruct (pc_state call) eqn:P; try apply stable_refl;
      (eapply stable_settle_plugin; eassumption).
Qed.

Lemma stable_invoke (this : HyperTrack) (op : operation) (w : world) :
  stable w (exec (invoke this op) w).
Proof.
  destruct (is_stream op) eqn:S.
  - destruct (invoke_stream_op this op w S) as (o & E & _).
    unfold exec. rewrite E. apply stable_refl.
  - unfold exec. rewrite (invoke_promise_op this op w S).
    eapply stable_extend; cbn; [reflexivity | symmetry; apply app_nil_r].
Qed.

Lemma stable_invoke_static (op : static_operation) (w : world) :
  stable w (exec (invoke_static op) w).
Proof.
  unfold exec. destruct op as [| key |].
  - rewrite invoke_enableDebugLogging.
    eapply stable_extend; cbn; [symmetry; apply app_nil_r | reflexivity].
  - rewrite invoke_initialize. eapply stable_extend; cbn; reflexivity.
  - rewrite invoke_getBlockers.
    eapply stable_extend; cbn; [symmetry; apply app_nil_r | reflexivity].
Qed.

Lemma stable_step (a : action) (w : world) : stable w (step w a).
Proof.
  destruct a as [this op | op | this op | s | ev].
  - rewrite exec_perform_call. apply stable_invoke.
  - rewrite exec_perform_static. apply stable_invoke_static.
  - rewrite exec_perform_subscribe. destruct (is_stream op).
    + apply stable_same; reflexivity.
    + apply stable_invoke.
  - unfold step, exec, perform, unsubscribe, modify. cbn [snd].
    destruct (subscribers w !! s); [apply stable_same; reflexivity | apply stable_refl].
  - apply stable_native_step.
Qed.

Lemma stable_run (t : list action) (w : world) : stable w (run t w).
Proof.
  revert w. induction t as [| a t IH]; intros w.
  - apply stable_refl.
  - cbn. eapply stable_trans; [apply stable_step | apply IH].
Qed.

Lemma run_app (t1 t2 : list action) (w : world) :
  run (t1 ++ t2) w = run t2 (run t1 w).
Proof. apply fold_left_app. Qed.

(** C5.  Among the instance methods, [trackingStateChange] and
    [availabilityStateChange], and no others, return an observable; a
    subscription to it is handed every value of any series of success
    callbacks, so it fires as often as the native layer does.  Every other
    instance method returns a promise, pending at first, and that promise
    settles at most once: once it is fulfilled or rejected, nothing that
    callers or the native layer do afterwards changes it. *)
Theorem two_streams_sixteen_promises (this : HyperTrack) (op : operation)
    (w : world) :
  let w1 := exec (invoke this op) w in
  ((exists o, eval (invoke this op) w = Normal (RObservable o))
   <-> op = trackingStateChange \/ op = availabilityStateChange)
  /\ ((exists p, eval (invoke this op) w = Normal (RPromise p))
      <-> op <> trackingStateChange /\ op <> availabilityStateChange)
  /\ (forall o fires,
        eval (invoke this op) w = Normal (RObservable o) ->
        stream_events
          (run (map (fun args =>
                       Native (Fires (length (native_calls w1)) Success args))
                  fires)
             (exec (subscribe o) w1))
          (length (subscribers w1))
        = Some (map (fun args => Next (arg0 args)) fires))
  /\ (forall p t1 t2 st,
        eval (invoke this op) w = Normal (RPromise p) ->
        promise_state w1 p = Some Pending
        /\ (promise_state (run t1 w1) p = Some st -> st <> Pending ->
            promise_state (run (t1 ++ t2) w1) p = Some st)).
Proof.
  intros w1. unfold eval. destruct (is_stream op) eqn:S.
  - destruct (invoke_stream_op this op w S) as (o & E & Sub).
    pose proof (proj1 (is_stream_true op) S) as D.
    split; [| split; [| split]].
    + split; [intros _; exact D | intros _; exists o; rewrite E; reflexivity].
    + rewrite E. split.
      * intros [p H]. discriminate H.
      * intros [N1 N2]. destruct D; contradiction.
    + intros o' fires H. rewrite E in H. injection H as <-.
      subst w1. unfold exec. rewrite E. cbn [snd]. rewrite Sub. cbn [snd].
      rewrite fires_all_next. unfold stream_events, subscribed. cbn [subscribers].
      rewrite lookup_fresh. reflexivity.
    + intros p t1 t2 st H. rewrite E in H. discriminate H.
  - pose proof (invoke_promise_op this op w S) as E.
    pose proof (proj1 (is_stream_false op) S) as D.
    split; [| split; [| split]].
    + rewrite E. split.
      * intros [o H]. discriminate H.
      * intros [-> | ->]; discriminate S.
    + split; [intros _; exact D | intros _; eexists; rewrite E; reflexivity].
    + intros o fires H. rewrite E in H. discriminate H.
    + intros p t1 t2 st H. rewrite E in H. injection H as <-.
      split.
      * subst w1. unfold exec. rewrite E. apply lookup_fresh.
      * intros H N. rewrite run_app. apply (stable_run t2 (run t1 w1)); assumption.
Qed.

Lemma two_streams_sixteen_promises_witness :
  promise_state
    (run ([Native (Fires 0 Success [VString "device-123"])]
          ++ [Native (Fires 0 Failure [VError Error_ "late"]);
              Native (Fires 0 Success [VString "device-456"])])
       (exec (invoke (new_HyperTrack 0) getDeviceId) empty_world))
    (FacadePromise 0)
  = Some (Fulfilled (VString "device-123"))
  /\ stream_events
       (run (map (fun args => Native (Fires 0 Success args))
               [[VBool true]; [VBool false]; [VBool true]])
          (exec (subscribe (HyperTrack_trackingStateChange (new_HyperTrack 0)))
             empty_world))
       0
     = Some [Next (VBool true); Next (VBool false); Next (VBool true)].
Proof.
  split.
  - apply (two_streams_sixteen_promises (new_HyperTrack 0) getDeviceId empty_world).
    + reflexivity.
    + reflexivity.
    + discriminate.
  - apply (two_streams_sixteen_promises (new_HyperTrack 0) trackingStateChange
             empty_world).
    reflexivity.
Defined.

(** ** Where errors come from *)

Lemma in_insert {A} (l : list A) (i : nat) (x y : A) :
  In y (<[i := x]> l) -> y = x \/ In y l.
Proof.
  revert i. induction l as [| z l IH]; intros [| i]; cbn; try tauto.
  - intros [<- | H]; auto.
  - intros [<- | H]; auto. destruct (IH _ H); auto.
Qed.

Lemma in_flat_map_insert {A B} (f : A -> list B) (l : list A) (i : nat)
    (x : A) (b : B) :
  In b (flat_map f (<[i := x]> l)) -> In b (f x) \/ In b (flat_map f l).
Proof.
  rewrite !in_flat_map. intros (y & Hy & Hb).
  destruct (in_insert _ _ _ _ Hy) as [-> | H]; [left | right; exists y]; auto.
Qed.

Lemma in_flat_map_snoc {A B} (f : A -> list B) (l : list A) (x : A) (b : B) :
  In b (flat_map f (l ++ [x])) <-> In b (flat_map f l) \/ In b (f x).
Proof. rewrite flat_map_app, in_app_iff. cbn. rewrite app_nil_r. tauto. Qed.

Lemma in_surfaced_errors (w : world) (e : value) :
  In e (surfaced_errors w)
  <-> In e (flat_map rejection (promises w))
      \/ In e (flat_map (fun c => rejection (pc_state c)) (plugin_calls w))
      \/ In e (flat_map (fun s => flat_map error_of (received s)) (subscribers w)).
Proof. unfold surfaced_errors. rewrite !in_app_iff. tauto. Qed.

Lemma grows_refl (errs : list value) (w : world) : grows errs w w.
Proof. intros e H. left. exact H. Qed.

Lemma grows_trans (errs : list value) (w1 w2 w3 : world) :
  grows errs w1 w2 -> grows errs w2 w3 -> grows errs w1 w3.
Proof.
  intros H12 H23 e H. destruct (H23 e H) as [H' | H']; [apply H12, H' | right; exact H'].
Qed.

Lemma grows_settle (p : nat) (st : pstate) (w : world) :
  grows (rejection st) w (exec (settle p st) w).
Proof.
  unfold exec, settle, modify. cbn [snd].
  destruct (promises w !! p) as [[| v | r] |]; try apply grows_refl.
  intros e. rewrite !in_surfaced_errors. cbn.
  intros [H | H]; [| tauto].
  destruct (in_flat_map_insert _ _ _ _ _ H); tauto.
Qed.

Lemma grows_settle_plugin (pc : nat) (st : pstate) (w : world) :
  grows (rejection st) w (exec (settle_plugin pc st) w).
Proof.
  unfold exec, settle_plugin, modify. cbn [snd].
  destruct (plugin_calls w !! pc) as [c |]; try apply grows_refl.
  intros e. rewrite !in_surfaced_errors. cbn.
  intros [H | [H | H]]; [tauto | | tauto].
  destruct (in_flat_map_insert _ _ _ _ _ H) as [H' | H']; cbn in H'; tauto.
Qed.

Lemma grows_observer_next (s : nat) (v : value) (w : world) :
  grows [] w (exec (observer_next s v) w).
Proof.
  unfold exec, observer_next, modify. cbn [snd].
  destruct (subscribers w !! s) as [sub |] eqn:L; try apply grows_refl.
  destruct (isStopped sub); try apply grows_refl.
  intros e. rewrite !in_surfaced_errors. cbn.
  intros [H | [H | H]]; [tauto | tauto |].
  destruct (in_flat_map_insert _ _ _ _ _ H) as [H' | H']; [| tauto].
  cbn in H'. rewrite flat_map_app, in_app_iff in H'. cbn in H'.
  destruct H' as [H' | []]. left. right. right.
  apply in_flat_map. exists sub. split; [| exact H'].
  apply list_elem_of_In, list_elem_of_lookup. exists s. exact L.
Qed.

Lemma grows_observer_error (s : nat) (err : value) (w : world) :
  grows [err] w (exec (observer_error s err) w).
Proof.
  unfold exec, observer_error, modify. cbn [snd].
  destruct (subscribers w !! s) as [sub |] eqn:L; try apply grows_refl.
  destruct (isStopped sub); try apply grows_refl.
  intros e. rewrite !in_surfaced_errors. cbn.
  intros [H | [H | H]]; [tauto | tauto |].
  destruct (in_flat_map_insert _ _ _ _ _ H) as [H' | H']; [| tauto].
  cbn in H'. rewrite flat_map_app, in_app_iff in H'. cbn in H'.
  destruct H' as [H' | [<- | []]]; [| tauto]. left. right. right.
  apply in_flat_map. exists sub. split; [| exact H'].
  apply list_elem_of_In, list_elem_of_lookup. exists s. exact L.
Qed.

Lemma grows_unsubscribe (s : nat) (w : world) :
  grows [] w (exec (unsubscribe s) w).
Proof.
  unfold exec, unsubscribe, modify. cbn [snd].
  destruct (subscribers w !! s) as [sub |] eqn:L; try apply grows_refl.
  intros e. rewrite !in_surfaced_errors. cbn.
  intros [H | [H | H]]; [tauto | tauto |].
  destruct (in_flat_map_insert _ _ _ _ _ H) as [H' | H']; [| tauto].
  cbn in H'. left. right. right.
  apply in_flat_map. exists sub. split; [| exact H'].
  apply list_elem_of_In, list_elem_of_lookup. exists s. exact L.
Qed.

Lemma grows_weaken (errs errs' : list value) (w w' : world) :
  (forall e, In e errs -> In e errs') -> grows errs w w' -> grows errs' w w'.
Proof. intros I G e H. destruct (G e H); auto. Qed.

Lemma rejection_settled {A} (inj : A -> value) (s : settlement A) :
  rejection (settled inj s)
  = match s with
    | Fulfil _ => []
    | Reject reason => [reason]
    end.
Proof. destruct s; reflexivity. Qed.

Lemma run_reactions_grows (rs : list reaction)
    (s : settlement HyperTrackCordova) (w : world) :
  grows (match s with Fulfil _ => [] | Reject reason => [reason] end) w
    (exec (run_reactions rs s) w).
Proof.
  revert w. induction rs as [| r rs IH]; intros w.
  - apply grows_refl.
  - unfold exec. rewrite run_reactions_cons.
    eapply grows_trans; [| apply IH].
    unfold exec. rewrite run_reaction_settle. destruct r as [outer].
    rewrite <- (rejection_settled (fun h => VHyperTrack (new_HyperTrack h))).
    apply grows_settle.
Qed.

Lemma grows_invoke (this : HyperTrack) (op : operation) (w : world) :
  grows [] w (exec (invoke this op) w).
Proof.
  unfold exec. destruct (is_stream op) eqn:S.
  - destruct (invoke_stream_op this op w S) as (o & E & _).
    rewrite E. apply grows_refl.
  - rewrite (invoke_promise_op this op w S).
    intros e. rewrite !in_surfaced_errors. cbn.
    rewrite in_flat_map_snoc. cbn. tauto.
Qed.

Lemma grows_invoke_static (op : static_operation) (w : world) :
  grows [] w (exec (invoke_static op) w).
Proof.
  unfold exec. destruct op as [| key |];
    rewrite ?invoke_enableDebugLogging, ?invoke_initialize, ?invoke_getBlockers;
    intros e; rewrite !in_surfaced_errors; cbn;
    rewrite ?in_flat_map_snoc; cbn; tauto.
Qed.

Lemma grows_subscribed (this : HyperTrack) (op : operation) (w : world) :
  grows [] w
    (subscribed this op (promises w) (subscribers w) (native_calls w)
       (plugin_calls w) [] false).
Proof.
  intros e. rewrite !in_surfaced_errors. cbn.
  rewrite ?in_flat_map_snoc. cbn. tauto.
Qed.

Lemma grows_native_step (ev : native_event) (w : world) :
  well_formed w -> grows (native_error (Native ev)) w (exec (native_step ev) w).
Proof.
  intros WF. destruct ev as [c ch args | pc s | pc s]; unfold exec, native_step.
  - destruct (native_calls w !! c) as [call |] eqn:L; [| apply grows_refl].
    destruct (proj1 (Forall_lookup _ _) WF c call L) as [SS FS].
    destruct ch; cbn [callback_of native_error].
    + destruct (nc_success call); try contradiction; cbn [invoke_callback].
      * apply (grows_settle p (Fulfilled (arg0 args))).
      * apply (grows_settle p (Fulfilled VUndefined)).
      * apply grows_observer_next.
    + destruct (nc_failure call); try contradiction; cbn [invoke_callback].
      * apply (grows_settle p (Rejected (arg0 args))).
      * apply grows_observer_error.
  - destruct (plugin_calls w !! pc) as [call |] eqn:L; [| apply grows_refl].
    destruct (pc_method call); try apply grows_refl.
    destruct (pc_state call) eqn:P; try apply grows_refl.
    change (grows (native_error (Native (InitializeSettles pc s))) w
              (exec (run_reactions (pc_reactions call) s)
                 (exec (settle_plugin pc (settled VNative s)) w))).
    cbn [native_error].
    eapply grows_trans; [| apply run_reactions_grows].
    rewrite <- (rejection_settled VNative). apply grows_settle_plugin.
  - destruct (plugin_calls w !! pc) as [call |] eqn:L; [| apply grows_refl].
    cbn [native_error]. rewrite <- (rejection_settled id).
    destruct (pc_method call); try apply grows_refl;
      destruct (pc_state call) eqn:P; try apply grows_refl;
      apply grows_settle_plugin.
Qed.

Lemma grows_step (a : action) (w : world) :
  well_formed w -> grows (native_error a) w (step w a).
Proof.
  intros WF. destruct a as [this op | op | this op | s | ev].
  - rewrite exec_perform_call. apply grows_invoke.
  - rewrite exec_perform_static. apply grows_invoke_static.
  - rewrite exec_perform_subscribe. destruct (is_stream op).
    + apply grows_subscribed.
    + apply grows_invoke.
  - apply grows_unsubscribe.
  - apply grows_native_step, WF.
Qed.

(** The native calls on record change only when a method is called or an
    observable is subscribed to. *)
Lemma native_calls_settle (p : nat) (st : pstate) (w : world) :
  native_calls (exec (settle p st) w) = native_calls w.
Proof.
  unfold exec, settle, modify. cbn [snd].
  destruct (promises w !! p) as [[] |]; reflexivity.
Qed.

Lemma native_calls_run_reactions (rs : list reaction)
    (s : settlement HyperTrackCordova) (w : world) :
  native_calls (exec (run_reactions rs s) w) = native_calls w.
Proof.
  revert w. induction rs as [| r rs IH]; intros w; [reflexivity |].
  unfold exec. rewrite run_reactions_cons.
  change (native_calls (exec (run_reactions rs s) (exec (run_reaction r s) w))
          = native_calls w).
  rewrite IH. unfold exec. rewrite run_reaction_settle. destruct r as [outer].
  apply native_calls_settle.
Qed.

Lemma native_calls_native_step (ev : native_event) (w : world) :
  native_calls (exec (native_step ev) w) = native_calls w.
Proof.
  destruct ev as [c ch args | pc s | pc s]; unfold exec, native_step.
  - destruct (native_calls w !! c) as [call |]; [| reflexivity].
    destruct (callback_of ch call); cbn [invoke_callback];
      try apply native_calls_settle;
      unfold observer_next, observer_error, modify; cbn [snd];
      destruct (subscribers w !! s) as [sub |]; try reflexivity;
      destruct (isStopped sub); reflexivity.
  - destruct (plugin_calls w !! pc) as [call |] eqn:L; [| reflexivity].
    destruct (pc_method call); try reflexivity.
    destruct (pc_state call); try reflexivity.
    change (native_calls
              (exec (run_reactions (pc_reactions call) s)
                 (exec (settle_plugin pc (settled VNative s)) w))
            = native_calls w).
    rewrite native_calls_run_reactions.
    unfold exec, settle_plugin, modify. cbn [snd]. rewrite L. reflexivity.
  - destruct (plugin_calls w !! pc) as [call |] eqn:L; [| reflexivity].
    destruct (pc_method call); try reflexivity;
      destruct (pc_state call); try reflexivity;
      unfold settle_plugin, modify; cbn [snd]; rewrite L; reflexivity.
Qed.

Lemma well_formed_snoc (w : world) (ncs : list native_call) (c : native_call) :
  well_formed w -> ncs = native_calls w ++ [c] ->
  success_shaped (nc_success c) -> failure_shaped (nc_failure c) ->
  Forall (fun c => success_shaped (nc_success c) /\ failure_shaped (nc_failure c))
    ncs.
Proof.
  intros WF -> S F. apply Forall_app. split; [exact WF |].
  constructor; [split; assumption | constructor].
Qed.

Lemma well_formed_empty : well_formed empty_world.
Proof. constructor. Qed.

Lemma well_formed_invoke (this : HyperTrack) (op : operation) (w : world) :
  well_formed w -> well_formed (exec (invoke this op) w).
Proof.
  intros WF. unfold exec. destruct (is_stream op) eqn:S.
  - destruct (invoke_stream_op this op w S) as (o & E & _). rewrite E. exact WF.
  - rewrite (invoke_promise_op this op w S).
    eapply well_formed_snoc; [exact WF | reflexivity | |]; cbn.
    + destruct (passes_result op); exact I.
    + exact I.
Qed.

Lemma well_formed_step (a : action) (w : world) :
  well_formed w -> well_formed (step w a).
Proof.
  intros WF. destruct a as [this op | op | this op | s | ev].
  - rewrite exec_perform_call. apply well_formed_invoke, WF.
  - rewrite exec_perform_static. unfold exec.
    destruct op as [| key |];
      rewrite ?invoke_enableDebugLogging, ?invoke_initialize, ?invoke_getBlockers;
      exact WF.
  - rewrite exec_perform_subscribe. destruct (is_stream op).
    + eapply well_formed_snoc; [exact WF | reflexivity | |]; exact I.
    + apply well_formed_invoke, WF.
  - unfold step, exec, perform, unsubscribe, modify. cbn [snd].
    destruct (subscribers w !! s); exact WF.
  - unfold well_formed, step, perform. rewrite native_calls_native_step. exact WF.
Qed.

Lemma well_formed_run (t : list action) (w : world) :
  well_formed w -> well_formed (run t w).
Proof.
  revert w. induction t as [| a t IH]; intros w WF; [exact WF |].
  apply IH, well_formed_step, WF.
Qed.

Lemma grows_run (t : list action) (w : world) :
  well_formed w -> grows (native_errors t) w (run t w).
Proof.
  revert w. induction t as [| a t IH]; intros w WF.
  - apply grows_refl.
  - cbn [run fold_left]. change (fold_left step t ?x) with (run t x).
    eapply grows_trans.
    + eapply grows_weaken; [| apply (grows_step a w WF)].
      intros e H. unfold native_errors. cbn. apply in_app_iff. auto.
    + eapply grows_weaken; [| apply IH, well_formed_step, WF].
      intros e H. unfold native_errors. cbn. apply in_app_iff. auto.
Qed.

Lemma perform_returns (a : action) (w : world) : eval (perform a) w = Normal tt.
Proof.
  unfold eval. destruct a as [this op | op | this op | s | ev]; cbn [perform].
  - unfold bind. destruct (is_stream op) eqn:S.
    + destruct (invoke_stream_op this op w S) as (o & E & _). rewrite E. reflexivity.
    + rewrite (invoke_promise_op this op w S). reflexivity.
  - destruct op; reflexivity.
  - unfold bind. destruct (is_stream op) eqn:S.
    + destruct (invoke_stream_op this op w S) as (o & E & Sub).
      rewrite E, Sub. reflexivity.
    + rewrite (invoke_promise_op this op w S). reflexivity.
  - reflexivity.
  - destruct ev as [c ch args | pc s | pc s]; unfold native_step.
    + destruct (native_calls w !! c) as [call |]; [| reflexivity].
      destruct (callback_of ch call); reflexivity.
    + destruct (plugin_calls w !! pc) as [call |]; [| reflexivity].
      destruct (pc_method call); try reflexivity.
      destruct (pc_state call); try reflexivity.
      apply run_reactions_stable.
    + destruct (plugin_calls w !! pc) as [call |]; [| reflexivity].
      destruct (pc_method call); try reflexivity;
        destruct (pc_state call); reflexivity.
Qed.

(** ** Acquiring an instance *)

Lemma initialize_settles (publishableKey : string) (w : world)
    (s : settlement HyperTrackCordova) :
  step (initializing publishableKey w)
    (Native (InitializeSettles (length (plugin_calls w)) s))
  = mkWorld
      (promises w ++ [settled (fun h => VHyperTrack (new_HyperTrack h)) s])
      (subscribers w) (native_calls w)
      (plugin_calls w
         ++ [mkPluginCall Plugin_initialize [VString publishableKey]
               (settled VNative s)
               [WrapInstanceOrReject (length (promises w))]]).
Proof.
  unfold step, exec, perform, native_step, initializing.
  cbn [plugin_calls]. rewrite lookup_fresh. cbn [pc_method pc_state pc_reactions].
  unfold bind, settle_plugin, modify, set_plugin_calls.
  cbn [plugin_calls promises subscribers native_calls].
  rewrite lookup_fresh, insert_fresh. cbn [pc_method pc_args pc_reactions].
  rewrite run_reactions_cons. cbn [run_reactions ret snd].
  unfold exec. rewrite run_reaction_settle, settle_fresh. reflexivity.
Qed.

(** C7.  For every publishable key, [initialize] hands the key unchanged to
    the plugin and returns a pending promise.  When the plugin's promise
    resolves with a native SDK instance, the returned promise is fulfilled
    with a [HyperTrack] whose handle is exactly that instance, and nothing
    has been called on the instance yet; a following [getDeviceId] on the
    [HyperTrack] calls [getDeviceId] of that same instance, and resolves
    with the device id the instance reports.  When the plugin's promise is
    rejected, the returned promise is rejected with the same error.  A
    [HyperTrack] holds nothing but the handle it was made from. *)
Theorem initialize_then_getDeviceId (publishableKey : string) (w : world) :
  let p := FacadePromise (length (promises w)) in
  let pc := length (plugin_calls w) in
  let w1 := exec (invoke_static (initialize publishableKey)) w in
  eval (invoke_static (initialize publishableKey)) w = Normal (RPromise p)
  /\ plugin_calls w1 !! pc
     = Some (mkPluginCall Plugin_initialize [VString publishableKey] Pending
               [WrapInstanceOrReject (length (promises w))])
  /\ promise_state w1 p = Some Pending
  /\ (forall cordovaInstance : HyperTrackCordova,
        let w2 := step w1 (Native (InitializeSettles pc (Fulfil cordovaInstance))) in
        let instance := new_HyperTrack cordovaInstance in
        let q := FacadePromise (length (promises w2)) in
        let w3 := exec (invoke instance getDeviceId) w2 in
        promise_state w2 p = Some (Fulfilled (VHyperTrack instance))
        /\ cordovaInstanceHandle instance = cordovaInstance
        /\ native_calls w2 = native_calls w
        /\ eval (invoke instance getDeviceId) w2 = Normal (RPromise q)
        /\ native_calls w3
           = native_calls w
               ++ [mkNativeCall cordovaInstance Cordova_getDeviceId []
                     (ResolveWithArg (length (promises w2)))
                     (RejectWithArg (length (promises w2)))]
        /\ forall deviceId,
             promise_state
               (step w3 (Native (Fires (length (native_calls w)) Success [deviceId])))
               q
             = Some (Fulfilled deviceId))
  /\ (forall err,
        promise_state (step w1 (Native (InitializeSettles pc (Reject err)))) p
        = Some (Rejected err))
  /\ (forall i : HyperTrack, i = new_HyperTrack (cordovaInstanceHandle i)).
Proof.
  intros p pc w1.
  assert (w1 = initializing publishableKey w) as E1.
  { subst w1. unfold exec. rewrite invoke_initialize. reflexivity. }
  split; [unfold eval; rewrite invoke_initialize; reflexivity |].
  split; [rewrite E1; apply lookup_fresh |].
  split; [rewrite E1; apply lookup_fresh |].
  split; [| split].
  - intros cordovaInstance w2 instance q w3.
    assert (w2 = mkWorld
                   (promises w ++ [Fulfilled (VHyperTrack instance)])
                   (subscribers w) (native_calls w)
                   (plugin_calls w
                      ++ [mkPluginCall Plugin_initialize [VString publishableKey]
                            (Fulfilled (VNative cordovaInstance))
                            [WrapInstanceOrReject (length (promises w))]])) as E2.
    { subst w2 pc. rewrite E1. apply initialize_settles. }
    split; [rewrite E2; apply lookup_fresh |].
    split; [reflexivity |].
    split; [rewrite E2; reflexivity |].
    pose proof (invoke_promise_op instance getDeviceId w2 eq_refl) as E3.
    split; [unfold eval; rewrite E3; reflexivity |].
    split; [subst w3; unfold exec; rewrite E3, E2; reflexivity |].
    intros deviceId. subst w3 q. unfold exec at 1. rewrite E3. cbn [snd].
    replace (native_calls w) with (native_calls w2) by (rewrite E2; reflexivity).
    unfold step, exec, perform. rewrite fires_fresh_promise. apply lookup_fresh.
  - intros err. subst pc. rewrite E1, initialize_settles. apply lookup_fresh.
  - intros [h]. reflexivity.
Qed.

Lemma initialize_then_getDeviceId_example :
  promise_state
    (run [CallStatic (initialize "pk_live_abc");
          Native (InitializeSettles 0 (Fulfil 7));
          Call (new_HyperTrack 7) getDeviceId;
          Native (Fires 0 Success [VString "device-123"])]
       empty_world)
    (FacadePromise 1)
  = Some (Fulfilled (VString "device-123")).
Proof.
  exact (proj2 (proj2 (proj2 (proj2 (proj2
           (proj1 (proj2 (proj2 (proj2
              (initialize_then_getDeviceId "pk_live_abc" empty_world))))
              7)))))
           (VString "device-123")).
Defined.

(** ** Debug logging *)

Lemma debug_logging_rejected (w : world) (reason : value) :
  step (exec (invoke_static enableDebugLogging) w)
    (Native (PluginSettles (length (plugin_calls w)) (Reject reason)))
  = mkWorld (promises w) (subscribers w) (native_calls w)
      (plugin_calls w
         ++ [mkPluginCall Plugin_enableDebugLogging [] (Rejected reason) []]).
Proof.
  unfold exec at 1. rewrite invoke_enableDebugLogging. cbn [snd].
  unfold step, exec, perform, native_step. cbn [plugin_calls].
  rewrite lookup_fresh. cbn [pc_method pc_state settled].
  unfold settle_plugin, modify, set_plugin_calls. cbn.
  rewrite lookup_fresh, insert_fresh. reflexivity.
Qed.

Lemma getBlockers_rejected (w : world) (reason : value) :
  step (exec (invoke_static getBlockers) w)
    (Native (PluginSettles (length (plugin_calls w)) (Reject reason)))
  = mkWorld (promises w) (subscribers w) (native_calls w)
      (plugin_calls w ++ [mkPluginCall Plugin_getBlockers [] (Rejected reason) []]).
Proof.
  unfold exec at 1. rewrite invoke_getBlockers. cbn [snd].
  unfold step, exec, perform, native_step. cbn [plugin_calls].
  rewrite lookup_fresh. cbn [pc_method pc_state settled].
  unfold settle_plugin, modify, set_plugin_calls. cbn.
  rewrite lookup_fresh, insert_fresh. reflexivity.
Qed.

(** C10.  [enableDebugLogging] makes the plugin call and returns nothing:
    the promise of the call is not returned and nothing is chained on it.
    When the native layer rejects that promise, no promise the facade made
    and no subscriber changes, so the failure reaches no caller.  Every
    other method differs: each other static method returns a promise that a
    native failure rejects with the native error, and each instance method
    returns a promise that the failure callback rejects, or an observable
    whose subscriber is handed the error. *)
Theorem enableDebugLogging_drops_failure (w : world) (reason : value) :
  let pc := length (plugin_calls w) in
  let w1 := exec HyperTrack_enableDebugLogging w in
  let w2 := step w1 (Native (PluginSettles pc (Reject reason))) in
  (HyperTrack_enableDebugLogging w = (Normal tt, w1)
   /\ invoke_static enableDebugLogging w = (Normal RVoid, w1)
   /\ plugin_calls w1
      = plugin_calls w ++ [mkPluginCall Plugin_enableDebugLogging [] Pending []]
   /\ promise_state w2 (PluginPromise pc) = Some (Rejected reason)
   /\ promises w2 = promises w
   /\ subscribers w2 = subscribers w
   /\ native_calls w2 = native_calls w)
  /\ (forall op, op <> enableDebugLogging ->
        exists p ev,
          eval (invoke_static op) w = Normal (RPromise p)
          /\ native_error (Native ev) = [reason]
          /\ promise_state (step (exec (invoke_static op) w) (Native ev)) p
             = Some (Rejected reason))
  /\ (forall this op,
        let failure := Native (Fires (length (native_calls w)) Failure [reason]) in
        (exists p,
            eval (invoke this op) w = Normal (RPromise p)
            /\ promise_state (step (exec (invoke this op) w) failure) p
               = Some (Rejected reason))
        \/ (exists o,
               eval (invoke this op) w = Normal (RObservable o)
               /\ stream_events (step (exec (subscribe o) w) failure)
                    (length (subscribers w))
                  = Some [Error reason])).
Proof.
  intros pc w1 w2. split; [| split].
  - assert (w2 = mkWorld (promises w) (subscribers w) (native_calls w)
                   (plugin_calls w
                      ++ [mkPluginCall Plugin_enableDebugLogging []
                            (Rejected reason) []])) as E2.
    { subst w2 w1 pc. apply debug_logging_rejected. }
    rewrite E2. repeat split. unfold promise_state. cbn [plugin_calls].
    subst pc. rewrite lookup_fresh. reflexivity.
  - intros [| key |] N; [contradiction | |].
    + exists (FacadePromise (length (promises w))),
        (InitializeSettles (length (plugin_calls w)) (Reject reason)).
      unfold eval, exec. rewrite invoke_initialize. cbn [fst snd].
      rewrite initialize_settles. repeat split. apply lookup_fresh.
    + exists (PluginPromise (length (plugin_calls w))),
        (PluginSettles (length (plugin_calls w)) (Reject reason)).
      rewrite getBlockers_rejected. unfold eval. rewrite invoke_getBlockers.
      repeat split. unfold promise_state. cbn [plugin_calls].
      rewrite lookup_fresh. reflexivity.
  - intros this op failure. destruct (is_stream op) eqn:S.
    + right. destruct (invoke_stream_op this op w S) as (o & E & Sub).
      exists o. unfold eval, exec. rewrite E, Sub. cbn [fst snd].
      split; [reflexivity |]. subst failure. rewrite fires_error.
      unfold stream_events, subscribed. cbn [subscribers].
      rewrite lookup_fresh. reflexivity.
    + left. exists (FacadePromise (length (promises w))).
      unfold eval, exec. rewrite (invoke_promise_op this op w S). cbn [fst snd].
      split; [reflexivity |]. subst failure. unfold step, exec, perform.
      rewrite fires_fresh_promise. apply lookup_fresh.
Qed.

Lemma enableDebugLogging_drops_failure_witness :
  exists p ev,
    eval (invoke_static getBlockers) empty_world = Normal (RPromise p)
    /\ native_error (Native ev) = [VError Error_ "cordova_not_available"]
    /\ promise_state (step (exec (invoke_static getBlockers) empty_world) (Native ev)) p
       = Some (Rejected (VError Error_ "cordova_not_available")).
Proof.
  apply (enableDebugLogging_drops_failure empty_world
           (VError Error_ "cordova_not_available")).
  discriminate.
Defined.

(** ** Coordinates *)

Lemma NaN_unordered (x : number) :
  js_lt NaN x = false /\ js_gt NaN x = false
  /\ js_lt x NaN = false /\ js_gt x NaN = false.
Proof. destruct x; repeat split. Qed.

Lemma NaN_in_no_interval (lo hi : Z) : ~ in_interval lo hi NaN.
Proof. intros []. Qed.

Lemma NaN_not_beyond (lo hi : Z) : ~ beyond lo hi NaN.
Proof. intros []. Qed.

(** C1 at the input the constructor gets wrong: NaN lies outside the
    interval from -90 to 90, yet a latitude of NaN is not rejected. *)
Theorem NaN_latitude_not_rejected :
  ~ in_interval (-90) 90 NaN
  /\ new_Coordinates NaN (num 0) empty_world = (Normal mkCoordinates, empty_world).
Proof. split; [apply NaN_in_no_interval | reflexivity]. Qed.

(** What C1 says holds of every coordinate that is ordered against the
    bounds: the constructor throws the validation error exactly when the
    latitude lies below -90 or above 90 or the longitude below -180 or above
    180, and inside both ranges it returns; in neither case does it touch
    the world. *)
Lemma new_Coordinates_ordered (latitude longitude : number) (w : world) :
  (beyond (-90) 90 latitude \/ beyond (-180) 180 longitude ->
   new_Coordinates latitude longitude w = (Throw validation_error, w))
  /\ (in_interval (-90) 90 latitude -> in_interval (-180) 180 longitude ->
      new_Coordinates latitude longitude w = (Normal mkCoordinates, w)).
Proof.
  split.
  - apply new_Coordinates_throws_iff.
  - intros H1 H2. apply new_Coordinates_succeeds_iff.
    split; apply in_interval_not_beyond; assumption.
Qed.

(** C8, as stated, fails: with NaN as latitude and 200 as longitude the
    constructor does raise the validation error, for the longitude. *)
Lemma NaN_latitude_bad_longitude_rejected :
  new_Coordinates NaN (num 200) empty_world
  = (Throw validation_error, empty_world).
Proof. reflexivity. Qed.

Lemma not_beyond_iff (lo hi : Z) (x : number) :
  ~ beyond lo hi x <-> x = NaN \/ in_interval lo hi x.
Proof.
  split.
  - intros N. destruct (interval_trichotomy lo hi x) as [H | [H | H]]; tauto.
  - intros [-> | H]; [apply NaN_not_beyond | apply in_interval_not_beyond, H].
Qed.

(** C8, as amended.  A coordinate that is NaN passes the range check: every
    comparison with NaN is false.  So when one coordinate is NaN, the
    constructor returns exactly when the other coordinate is NaN too or
    within its range, although the pair does not lie within the two ranges,
    and it throws the validation error exactly when the other coordinate
    lies below or above its range. *)
Theorem NaN_passes_range_check (latitude longitude : number) (w : world) :
  latitude = NaN \/ longitude = NaN ->
  (new_Coordinates latitude longitude w = (Normal mkCoordinates, w)
   <-> (latitude = NaN \/ in_interval (-90) 90 latitude)
       /\ (longitude = NaN \/ in_interval (-180) 180 longitude))
  /\ (new_Coordinates latitude longitude w = (Throw validation_error, w)
      <-> beyond (-90) 90 latitude \/ beyond (-180) 180 longitude)
  /\ (new_Coordinates latitude longitude w = (Normal mkCoordinates, w)
      \/ new_Coordinates latitude longitude w = (Throw validation_error, w))
  /\ ~ (in_interval (-90) 90 latitude /\ in_interval (-180) 180 longitude)
  /\ (forall x, js_lt NaN x = false /\ js_gt NaN x = false
                /\ js_lt x NaN = false /\ js_gt x NaN = false).
Proof.
  intros HN. split; [| split; [| split; [| split]]].
  - rewrite new_Coordinates_succeeds_iff, !not_beyond_iff. reflexivity.
  - apply new_Coordinates_throws_iff.
  - destruct (new_Coordinates_total latitude longitude w); auto.
  - intros [I1 I2]. destruct HN as [-> | ->]; [exact I1 | exact I2].
  - apply NaN_unordered.
Qed.

Lemma NaN_passes_range_check_witness :
  new_Coordinates NaN (num 12) empty_world = (Normal mkCoordinates, empty_world)
  /\ new_Coordinates (num 200) NaN empty_world
     = (Throw validation_error, empty_world).
Proof.
  split.
  - apply (NaN_passes_range_check NaN (num 12) empty_world).
    + left. reflexivity.
    + split.
      * left. reflexivity.
      * right. unfold in_interval, num, Qle. simpl. lia.
  - apply (NaN_passes_range_check (num 200) NaN empty_world).
    + right. reflexivity.
    + left. right. unfold num, Qlt. simpl. lia.
Defined.

(** C9.  Whatever valid coordinates they were made from, two [Coordinates]
    are the same object content, a geotag call carries the same arguments
    to the native layer for both, and no function recovers latitude and
    longitude from a constructed [Coordinates]. *)
Theorem Coordinates_retains_nothing :
  (forall lat1 lon1 lat2 lon2 w1 w2 c1 c2,
      eval (new_Coordinates lat1 lon1) w1 = Normal c1 ->
      eval (new_Coordinates lat2 lon2) w2 = Normal c2 ->
      c1 = c2
      /\ VCoordinates c1 = VCoordinates c2
      /\ forall this geotagData w,
           invoke this (addGeotag geotagData (Some c1)) w
           = invoke this (addGeotag geotagData (Some c2)) w)
  /\ (forall (this : HyperTrack) geotagData w c,
        native_calls (exec (invoke this (addGeotag geotagData (Some c))) w)
        = native_calls w
            ++ [mkNativeCall (cordovaInstanceHandle this) Cordova_addGeoTag
                  [geotagData; VCoordinates mkCoordinates]
                  (ResolveVoid (length (promises w)))
                  (RejectWithArg (length (promises w)))])
  /\ ~ (exists recover : Coordinates -> number * number,
          forall latitude longitude w c,
            eval (new_Coordinates latitude longitude) w = Normal c ->
            recover c = (latitude, longitude)).
Proof.
  split; [| split].
  - intros lat1 lon1 lat2 lon2 w1 w2 [] [] _ _. repeat split.
  - intros this geotagData w []. reflexivity.
  - intros [recover H].
    pose proof (H (num 0) (num 0) empty_world mkCoordinates eq_refl) as H0.
    pose proof (H (num 1) (num 0) empty_world mkCoordinates eq_refl) as H1.
    rewrite H0 in H1. discriminate H1.
Qed.

Lemma Coordinates_retains_nothing_witness :
  VCoordinates mkCoordinates = VCoordinates mkCoordinates.
Proof.
  apply (proj1 Coordinates_retains_nothing
           (num 48) (num 2) (num (-33)) (num 151) empty_world empty_world
           mkCoordinates mkCoordinates);
    reflexivity.
Defined.

(** * Further properties of the facade *)

(** ** What the primitives leave alone *)

Ltac prim :=
  unfold exec, settle, settle_plugin, observer_next, observer_error,
    unsubscribe, modify, set_promises, set_subscribers, set_plugin_calls;
  cbn [snd];
  repeat match goal with
         | |- context [match ?l !! ?i with _ => _ end] =>
             destruct (l !! i) as [[]|] eqn:?
         | |- context [if ?b then _ else _] => destruct b eqn:?
         end;
  cbn [promises subscribers native_calls plugin_calls].

Lemma settle_promises_ne (p p' : nat) (st : pstate) (w : world) :
  p' <> p -> promises (exec (settle p' st) w) !! p = promises w !! p.
Proof. intros D. prim; try reflexivity. apply list_lookup_insert_ne, D. Qed.

Lemma settle_promises_length (p : nat) (st : pstate) (w : world) :
  length (promises (exec (settle p st) w)) = length (promises w).
Proof. prim; try reflexivity. apply length_insert. Qed.

Lemma settle_subscribers (p : nat) (st : pstate) (w : world) :
  subscribers (exec (settle p st) w) = subscribers w.
Proof. prim; reflexivity. Qed.

Lemma settle_plugin_calls (p : nat) (st : pstate) (w : world) :
  plugin_calls (exec (settle p st) w) = plugin_calls w.
Proof. prim; reflexivity. Qed.

Lemma settle_pending (p : nat) (st : pstate) (w : world) :
  promises w !! p = Some Pending ->
  promises (exec (settle p st) w) !! p = Some st.
Proof.
  intros L. unfold exec, settle, modify. cbn [snd]. rewrite L. cbn.
  apply list_lookup_insert_eq. apply lookup_lt_Some in L. exact L.
Qed.

Lemma settle_not_pending (p : nat) (st st' : pstate) (w : world) :
  promises w !! p = Some st' -> st' <> Pending ->
  promises (exec (settle p st) w) !! p = Some st'.
Proof.
  intros L N. unfold exec, settle, modify. cbn [snd]. rewrite L.
  destruct st'; [contradiction | exact L | exact L].
Qed.

Lemma observer_promises (cb : callback) (args : list value) (w : world) s :
  cb_target cb = TSubscriber s ->
  promises (exec (invoke_callback cb args) w) = promises w
  /\ length (subscribers (exec (invoke_callback cb args) w))
     = length (subscribers w)
  /\ plugin_calls (exec (invoke_callback cb args) w) = plugin_calls w
  /\ forall s', s' <> s ->
       subscribers (exec (invoke_callback cb args) w) !! s'
       = subscribers w !! s'.
Proof.
  destruct cb; cbn [cb_target invoke_callback]; intros E; try discriminate E;
    injection E as ->; prim; repeat split; try reflexivity;
    try apply length_insert;
    intros s' D; apply list_lookup_insert_ne; congruence.
Qed.

Lemma promise_callback (cb : callback) (args : list value) (w : world) p :
  cb_target cb = TPromise p ->
  exists st, invoke_callback cb args w = settle p st w.
Proof.
  destruct cb; cbn [cb_target invoke_callback]; intros E; try discriminate E;
    injection E as ->; eexists; reflexivity.
Qed.

Lemma unsubscribe_frame (s : nat) (w : world) :
  promises (exec (unsubscribe s) w) = promises w
  /\ length (subscribers (exec (unsubscribe s) w)) = length (subscribers w)
  /\ native_calls (exec (unsubscribe s) w) = native_calls w
  /\ plugin_calls (exec (unsubscribe s) w) = plugin_calls w
  /\ forall s', s' <> s ->
       subscribers (exec (unsubscribe s) w) !! s' = subscribers w !! s'.
Proof.
  prim; repeat split; try reflexivity; try apply length_insert;
    intros s' D; apply list_lookup_insert_ne; congruence.
Qed.

Lemma settle_plugin_frame (pc : nat) (st : pstate) (w : world) :
  promises (exec (settle_plugin pc st) w) = promises w
  /\ subscribers (exec (settle_plugin pc st) w) = subscribers w
  /\ native_calls (exec (settle_plugin pc st) w) = native_calls w.
Proof. prim; repeat split. Qed.

Lemma run_reactions_frame (rs : list reaction)
    (s : settlement HyperTrackCordova) (w : world) :
  subscribers (exec (run_reactions rs s) w) = subscribers w
  /\ plugin_calls (exec (run_reactions rs s) w) = plugin_calls w
  /\ length (promises (exec (run_reactions rs s) w)) = length (promises w)
  /\ forall p, ~ In (TPromise p) (map reaction_target rs) ->
       promises (exec (run_reactions rs s) w) !! p = promises w !! p.
Proof.
  revert w. induction rs as [| [outer] rs IH]; intros w.
  - repeat split.
  - unfold exec at 1 2 3 4. rewrite run_reactions_cons.
    fold (exec (run_reactions rs s)
            (exec (run_reaction (WrapInstanceOrReject outer) s) w)).
    destruct (IH (exec (run_reaction (WrapInstanceOrReject outer) s) w))
      as (I1 & I2 & I3 & I4).
    assert (exec (run_reaction (WrapInstanceOrReject outer) s) w
            = exec (settle outer
                      (settled (fun h => VHyperTrack (new_HyperTrack h)) s)) w)
      as E by (unfold exec; rewrite run_reaction_settle; reflexivity).
    split; [rewrite I1, E; apply settle_subscribers |].
    split; [rewrite I2, E; apply settle_plugin_calls |].
    split; [rewrite I3, E; apply settle_promises_length |].
    intros p N. cbn in N. rewrite I4 by tauto.
    rewrite E. apply settle_promises_ne.
    intros ->. tauto.
Qed.

(** ** What one action does *)

Lemma step_fires (c : nat) (ch : channel) (args : list value) (w : world) :
  step w (Native (Fires c ch args))
  = match native_calls w !! c with
    | Some call => exec (invoke_callback (callback_of ch call) args) w
    | None => w
    end.
Proof.
  unfold step, exec, perform, native_step.
  destruct (native_calls w !! c); reflexivity.
Qed.

Lemma step_initialize_settles (pc : nat) (s : settlement HyperTrackCordova)
    (w : world) :
  step w (Native (InitializeSettles pc s))
  = match plugin_calls w !! pc with
    | Some call =>
        match pc_method call, pc_state call with
        | Plugin_initialize, Pending =>
            exec (run_reactions (pc_reactions call) s)
              (exec (settle_plugin pc (settled VNative s)) w)
        | _, _ => w
        end
    | None => w
    end.
Proof.
  unfold step, exec, perform, native_step.
  destruct (plugin_calls w !! pc) as [call |]; [| reflexivity].
  destruct (pc_method call), (pc_state call); reflexivity.
Qed.

Lemma step_plugin_settles (pc : nat) (s : settlement value) (w : world) :
  step w (Native (PluginSettles pc s))
  = match plugin_calls w !! pc with
    | Some call =>
        match pc_method call, pc_state call with
        | Plugin_initialize, _ => w
        | _, Pending => exec (settle_plugin pc (settled id s)) w
        | _, _ => w
        end
    | None => w
    end.
Proof.
  unfold step, exec, perform, native_step.
  destruct (plugin_calls w !! pc) as [call |]; [| reflexivity].
  destruct (pc_method call), (pc_state call); reflexivity.
Qed.

(** The world a caller's action leaves: everything on record stays, and
    what is new is appended. *)
Lemma step_caller (a : action) (w : world) :
  match a with
  | Call _ _ | CallStatic _ | SubscribeTo _ _ => True
  | _ => False
  end ->
  exists ps subs pcs,
    step w a
    = mkWorld (promises w ++ ps) (subscribers w ++ subs)
        (native_calls w ++ new_calls w a) (plugin_calls w ++ pcs)
    /\ Forall (fun c =>
                 forall r, In r (pc_reactions c) ->
                           reaction_target r = TPromise (length (promises w)))
              pcs.
Proof.
  destruct a as [this op | op | this op | s | ev]; intros H; try contradiction.
  - rewrite exec_perform_call. unfold exec. cbn [new_calls].
    destruct (is_stream op) eqn:S.
    + destruct (invoke_stream_op this op w S) as (o & E & _). rewrite E.
      exists [], [], []. rewrite !app_nil_r. destruct w. split; [reflexivity | constructor].
    + rewrite (invoke_promise_op this op w S).
      exists [Pending], [], []. rewrite !app_nil_r. split; [reflexivity | constructor].
  - rewrite exec_perform_static. unfold exec. cbn [new_calls].
    destruct op as [| key |];
      rewrite ?invoke_enableDebugLogging, ?invoke_initialize, ?invoke_getBlockers.
    + eexists [], [], [_]. rewrite !app_nil_r. split; [reflexivity |].
      constructor; [intros r [] | constructor].
    + eexists [Pending], [], [_]. rewrite !app_nil_r. split; [reflexivity |].
      constructor; [| constructor]. intros r [<- | []]. reflexivity.
    + eexists [], [], [_]. rewrite !app_nil_r. split; [reflexivity |].
      constructor; [intros r [] | constructor].
  - rewrite exec_perform_subscribe. cbn [new_calls].
    destruct (is_stream op) eqn:S.
    + exists [], [mkSubscriber [] false], []. rewrite !app_nil_r.
      split; [reflexivity | constructor].
    + unfold exec. rewrite (invoke_promise_op this op w S).
      exists [Pending], [], []. rewrite !app_nil_r. split; [reflexivity | constructor].
Qed.

Lemma native_calls_step (a : action) (w : world) :
  native_calls (step w a) = native_calls w ++ new_calls w a.
Proof.
  destruct a as [this op | op | this op | s | ev].
  - destruct (step_caller (Call this op) w I) as (ps & subs & pcs & E & _).
    rewrite E. reflexivity.
  - destruct (step_caller (CallStatic op) w I) as (ps & subs & pcs & E & _).
    rewrite E. reflexivity.
  - destruct (step_caller (SubscribeTo this op) w I) as (ps & subs & pcs & E & _).
    rewrite E. reflexivity.
  - cbn [new_calls]. rewrite app_nil_r. apply unsubscribe_frame.
  - cbn [new_calls]. rewrite app_nil_r. apply native_calls_native_step.
Qed.

Lemma invoke_callback_frame (cb : callback) (args : list value) (w : world) :
  length (promises (exec (invoke_callback cb args) w)) = length (promises w)
  /\ length (subscribers (exec (invoke_callback cb args) w))
     = length (subscribers w)
  /\ plugin_calls (exec (invoke_callback cb args) w) = plugin_calls w
  /\ (forall p, cb_target cb <> TPromise p ->
        promises (exec (invoke_callback cb args) w) !! p = promises w !! p)
  /\ (forall s, cb_target cb <> TSubscriber s ->
        subscribers (exec (invoke_callback cb args) w) !! s
        = subscribers w !! s).
Proof.
  destruct (cb_target cb) as [p | s] eqn:T.
  - destruct (promise_callback cb args w p T) as [st E].
    unfold exec. rewrite E. fold (exec (settle p st) w).
    rewrite settle_promises_length, settle_subscribers, settle_plugin_calls.
    repeat split. intros p' D. apply settle_promises_ne. congruence.
  - destruct (observer_promises cb args w s T) as (E1 & E2 & E3 & E4).
    rewrite E1, E2, E3. repeat split. intros s' D. apply E4. congruence.
Qed.

Lemma lengths_step (a : action) (w : world) :
  length (promises w) <= length (promises (step w a))
  /\ length (subscribers w) <= length (subscribers (step w a)).
Proof.
  destruct a as [this op | op | this op | s | [c ch args | pc st | pc st]].
  - destruct (step_caller (Call this op) w I) as (ps & subs & pcs & E & _).
    rewrite E. cbn. rewrite !length_app. lia.
  - destruct (step_caller (CallStatic op) w I) as (ps & subs & pcs & E & _).
    rewrite E. cbn. rewrite !length_app. lia.
  - destruct (step_caller (SubscribeTo this op) w I) as (ps & subs & pcs & E & _).
    rewrite E. cbn. rewrite !length_app. lia.
  - destruct (unsubscribe_frame s w) as (E1 & E2 & _).
    unfold step, perform. rewrite E1, E2. lia.
  - rewrite step_fires. destruct (native_calls w !! c) as [call |]; [| lia].
    destruct (invoke_callback_frame (callback_of ch call) args w) as (E1 & E2 & _).
    rewrite E1, E2. lia.
  - rewrite step_initialize_settles.
    destruct (plugin_calls w !! pc) as [call |]; [| lia].
    destruct (pc_method call), (pc_state call); try lia.
    destruct (run_reactions_frame (pc_reactions call) st
                (exec (settle_plugin pc (settled VNative st)) w))
      as (E1 & _ & E3 & _).
    destruct (settle_plugin_frame pc (settled VNative st) w) as (F1 & F2 & _).
    rewrite E1, E3, F1, F2. lia.
  - rewrite step_plugin_settles.
    destruct (plugin_calls w !! pc) as [call |]; [| lia].
    destruct (settle_plugin_frame pc (settled id st) w) as (F1 & F2 & _).
    destruct (pc_method call), (pc_state call); rewrite ?F1, ?F2; lia.
Qed.

Lemma allocated_step (a : action) (w : world) (x : target) :
  allocated w x -> allocated (step w a) x.
Proof.
  destruct (lengths_step a w). destruct x; cbn; lia.
Qed.

(** An action leaves alone every promise and subscriber it does not touch. *)
Lemma frame_promise (a : action) (w : world) (p : nat) :
  p < length (promises w) -> ~ In (TPromise p) (touches w a) ->
  promises (step w a) !! p = promises w !! p.
Proof.
  intros A N.
  destruct a as [this op | op | this op | s | [c ch args | pc st | pc st]].
  - destruct (step_caller (Call this op) w I) as (ps & subs & pcs & E & _).
    rewrite E. apply lookup_app_l, A.
  - destruct (step_caller (CallStatic op) w I) as (ps & subs & pcs & E & _).
    rewrite E. apply lookup_app_l, A.
  - destruct (step_caller (SubscribeTo this op) w I) as (ps & subs & pcs & E & _).
    rewrite E. apply lookup_app_l, A.
  - destruct (unsubscribe_frame s w) as (E1 & _).
    unfold step, perform. rewrite E1. reflexivity.
  - rewrite step_fires. cbn [touches] in N.
    destruct (native_calls w !! c) as [call |]; [| reflexivity].
    apply invoke_callback_frame. intros E. apply N. left. exact E.
  - rewrite step_initialize_settles. cbn [touches] in N.
    destruct (plugin_calls w !! pc) as [call |]; [| reflexivity].
    destruct (pc_method call), (pc_state call); try reflexivity.
    destruct (run_reactions_frame (pc_reactions call) st
                (exec (settle_plugin pc (settled VNative st)) w))
      as (_ & _ & _ & E4).
    rewrite (E4 p N).
    destruct (settle_plugin_frame pc (settled VNative st) w) as (F1 & _).
    rewrite F1. reflexivity.
  - rewrite step_plugin_settles.
    destruct (plugin_calls w !! pc) as [call |]; [| reflexivity].
    destruct (settle_plugin_frame pc (settled id st) w) as (F1 & _).
    destruct (pc_method call), (pc_state call); rewrite ?F1; reflexivity.
Qed.

Lemma frame_subscriber (a : action) (w : world) (s : nat) :
  s < length (subscribers w) -> ~ In (TSubscriber s) (touches w a) ->
  subscribers (step w a) !! s = subscribers w !! s.
Proof.
  intros A N.
  destruct a as [this op | op | this op | s' | [c ch args | pc st | pc st]].
  - destruct (step_caller (Call this op) w I) as (ps & subs & pcs & E & _).
    rewrite E. apply lookup_app_l, A.
  - destruct (step_caller (CallStatic op) w I) as (ps & subs & pcs & E & _).
    rewrite E. apply lookup_app_l, A.
  - destruct (step_caller (SubscribeTo this op) w I) as (ps & subs & pcs & E & _).
    rewrite E. apply lookup_app_l, A.
  - apply unsubscribe_frame. intros ->. apply N. left. reflexivity.
  - rewrite step_fires. cbn [touches] in N.
    destruct (native_calls w !! c) as [call |]; [| reflexivity].
    apply invoke_callback_frame. intros E. apply N. left. exact E.
  - rewrite step_initialize_settles.
    destruct (plugin_calls w !! pc) as [call |]; [| reflexivity].
    destruct (pc_method call), (pc_state call); try reflexivity.
    destruct (run_reactions_frame (pc_reactions call) st
                (exec (settle_plugin pc (settled VNative st)) w))
      as (E1 & _).
    destruct (settle_plugin_frame pc (settled VNative st) w) as (_ & F2 & _).
    rewrite E1, F2. reflexivity.
  - rewrite step_plugin_settles.
    destruct (plugin_calls w !! pc) as [call |]; [| reflexivity].
    destruct (settle_plugin_frame pc (settled id st) w) as (_ & F2 & _).
    destruct (pc_method call), (pc_state call); rewrite ?F2; reflexivity.
Qed.

(** ** What is on record stays as it is *)

Lemma settle_plugin_reactions (pc' pc : nat) (st : pstate) (w : world)
    (pcall : plugin_call) :
  plugin_calls (exec (settle_plugin pc' st) w) !! pc = Some pcall ->
  exists pcall0,
    plugin_calls w !! pc = Some pcall0
    /\ pc_reactions pcall = pc_reactions pcall0
    /\ pc_method pcall = pc_method pcall0
    /\ pc_args pcall = pc_args pcall0.
Proof.
  unfold exec, settle_plugin, modify. cbn [snd].
  destruct (plugin_calls w !! pc') as [c0 |] eqn:L; cbn [plugin_calls set_plugin_calls].
  - destruct (decide (pc' = pc)) as [-> | D].
    + rewrite list_lookup_insert_eq by (apply lookup_lt_Some in L; exact L).
      intros [= <-]. exists c0. repeat split. exact L.
    + rewrite list_lookup_insert_ne by exact D. intros H. exists pcall. auto.
  - intros H. exists pcall. auto.
Qed.

Lemma reactions_step (a : action) (w : world) (pc : nat) (pcall : plugin_call)
    (r : reaction) :
  plugin_calls (step w a) !! pc = Some pcall -> In r (pc_reactions pcall) ->
  (exists pcall0, plugin_calls w !! pc = Some pcall0 /\ In r (pc_reactions pcall0))
  \/ reaction_target r = TPromise (length (promises w)).
Proof.
  assert (forall ps subs pcs : _, forall a',
             step w a' = mkWorld (promises w ++ ps) (subscribers w ++ subs)
                           (native_calls w ++ new_calls w a') (plugin_calls w ++ pcs) ->
             Forall (fun c => forall r, In r (pc_reactions c) ->
                       reaction_target r = TPromise (length (promises w))) pcs ->
             plugin_calls (step w a') !! pc = Some pcall -> In r (pc_reactions pcall) ->
             (exists pcall0, plugin_calls w !! pc = Some pcall0
                             /\ In r (pc_reactions pcall0))
             \/ reaction_target r = TPromise (length (promises w))) as Caller.
  { intros ps subs pcs a' E F L R. rewrite E in L. cbn in L.
    apply lookup_app_Some in L. destruct L as [L | [_ L]].
    - left. eauto.
    - right. apply (proj1 (Forall_lookup _ _) F _ _ L), R. }
  intros L R.
  destruct a as [this op | op | this op | s | [c ch args | pc' st | pc' st]].
  - destruct (step_caller (Call this op) w I) as (ps & subs & pcs & E & F). eauto.
  - destruct (step_caller (CallStatic op) w I) as (ps & subs & pcs & E & F). eauto.
  - destruct (step_caller (SubscribeTo this op) w I) as (ps & subs & pcs & E & F). eauto.
  - destruct (unsubscribe_frame s w) as (_ & _ & _ & E4 & _).
    unfold step, perform in L. rewrite E4 in L. left. eauto.
  - rewrite step_fires in L. destruct (native_calls w !! c) as [call |].
    + destruct (invoke_callback_frame (callback_of ch call) args w) as (_ & _ & E & _).
      rewrite E in L. left. eauto.
    + left. eauto.
  - rewrite step_initialize_settles in L. left.
    destruct (plugin_calls w !! pc') as [call |] eqn:L'; [| eauto].
    destruct (pc_method call), (pc_state call); eauto.
    destruct (run_reactions_frame (pc_reactions call) st
                (exec (settle_plugin pc' (settled VNative st)) w))
      as (_ & E2 & _).
    rewrite E2 in L. apply settle_plugin_reactions in L.
    destruct L as (pcall0 & L0 & ER & _). exists pcall0. rewrite <- ER. auto.
  - rewrite step_plugin_settles in L. left.
    destruct (plugin_calls w !! pc') as [call |] eqn:L'; [| eauto].
    destruct (pc_method call), (pc_state call); eauto;
      apply settle_plugin_reactions in L;
      destruct L as (pcall0 & L0 & ER & _); exists pcall0; rewrite <- ER; auto.
Qed.

Lemma new_calls_fresh (a : action) (w : world) (call : native_call) :
  In call (new_calls w a) ->
  (cb_target (nc_success call) = TPromise (length (promises w))
   /\ cb_target (nc_failure call) = TPromise (length (promises w)))
  \/ (cb_target (nc_success call) = TSubscriber (length (subscribers w))
      /\ cb_target (nc_failure call) = TSubscriber (length (subscribers w))).
Proof.
  destruct a as [this op | op | this op | s | ev]; cbn [new_calls];
    try contradiction; destruct (is_stream op); try contradiction;
    intros [<- | []]; cbn; auto; destruct (passes_result op); auto.
Qed.

Lemma allocated_not_fresh (w : world) (x : target) :
  allocated w x ->
  x <> TPromise (length (promises w)) /\ x <> TSubscriber (length (subscribers w)).
Proof. destruct x; cbn; intros A; split; intros [= E]; lia. Qed.

Lemma sole_owner_step (a : action) (w : world) (c : nat) (x : target) :
  sole_owner w c x -> sole_owner (step w a) c x.
Proof.
  intros (A & (call & L & T1 & T2) & Others & Reactions).
  destruct (allocated_not_fresh w x A) as [NP NS].
  split; [apply allocated_step, A |].
  split; [| split].
  - exists call. rewrite native_calls_step. split; [| auto].
    apply lookup_app_l_Some, L.
  - intros c' call' L' D. rewrite native_calls_step in L'.
    apply lookup_app_Some in L'. destruct L' as [L' | [_ L']].
    + exact (Others c' call' L' D).
    + apply list_elem_of_lookup_2, list_elem_of_In, new_calls_fresh in L'.
      destruct L' as [[-> ->] | [-> ->]]; split; congruence.
  - intros pc pcall r L' R.
    destruct (reactions_step a w pc pcall r L' R) as [(pcall0 & L0 & R0) | F].
    + exact (Reactions pc pcall0 r L0 R0).
    + congruence.
Qed.

Lemma sole_owner_run (t : list action) (w : world) (c : nat) (x : target) :
  sole_owner w c x -> sole_owner (run t w) c x.
Proof.
  revert w. induction t as [| a t IH]; intros w H; [exact H |].
  apply IH, sole_owner_step, H.
Qed.

(** Under sole ownership, only the callbacks of the owning call, and for a
    subscriber the consumer's unsubscription, touch the target. *)
Lemma sole_owner_touches (a : action) (w : world) (c : nat) (x : target) :
  sole_owner w c x -> In x (touches w a) ->
  (exists ch args, a = Native (Fires c ch args))
  \/ (exists s, a = Unsubscribe s /\ x = TSubscriber s).
Proof.
  intros (A & (call & L & T1 & T2) & Others & Reactions) H.
  destruct a as [this op | op | this op | s | [c' ch args | pc st | pc st]];
    cbn [touches] in H; try contradiction.
  - right. destruct H as [<- | []]. eauto.
  - left. destruct (native_calls w !! c') as [call' |] eqn:L'; [| contradiction].
    destruct H as [H | []]. destruct (decide (c' = c)) as [-> | D]; [eauto |].
    destruct (Others c' call' L' D) as [N1 N2]. destruct ch; cbn in H; congruence.
  - destruct (plugin_calls w !! pc) as [pcall |] eqn:L'; [| contradiction].
    apply in_map_iff in H. destruct H as (r & E & R).
    destruct (Reactions pc pcall r L' R E).
Qed.

(** ** Every record closes over its own promise or subscriber *)

Lemma flat_map_insert_same {A B} (f : A -> list B) (l : list A) (i : nat)
    (x y : A) :
  l !! i = Some x -> f y = f x -> flat_map f (<[i := y]> l) = flat_map f l.
Proof.
  revert i. induction l as [| z l IH]; intros [| i] L E; try discriminate L.
  - injection L as ->. cbn. rewrite E. reflexivity.
  - change (<[S i := y]> (z :: l)) with (z :: <[i := y]> l).
    cbn [flat_map]. rewrite (IH i L E). reflexivity.
Qed.

Lemma settle_plugin_reaction_targets (pc : nat) (st : pstate) (w : world) :
  reaction_targets (plugin_calls (exec (settle_plugin pc st) w))
  = reaction_targets (plugin_calls w).
Proof.
  unfold exec, settle_plugin, modify. cbn [snd].
  destruct (plugin_calls w !! pc) as [c |] eqn:L; [| reflexivity].
  cbn [plugin_calls set_plugin_calls].
  apply (flat_map_insert_same _ _ _ c); [exact L | reflexivity].
Qed.

Lemma reaction_targets_step (a : action) (w : world) :
  reaction_targets (plugin_calls (step w a))
  = reaction_targets (plugin_calls w)
    ++ match a with
       | CallStatic (initialize _) => [TPromise (length (promises w))]
       | _ => []
       end.
Proof.
  destruct a as [this op | op | this op | s | [c ch args | pc st | pc st]].
  - rewrite exec_perform_call, app_nil_r. unfold exec.
    destruct (is_stream op) eqn:S.
    + destruct (invoke_stream_op this op w S) as (o & E & _).
      rewrite E. reflexivity.
    + rewrite (invoke_promise_op this op w S). reflexivity.
  - rewrite exec_perform_static. unfold exec, reaction_targets.
    destruct op as [| key |];
      rewrite ?invoke_enableDebugLogging, ?invoke_initialize, ?invoke_getBlockers;
      cbn [snd plugin_calls initializing]; rewrite flat_map_app; reflexivity.
  - rewrite exec_perform_subscribe, app_nil_r. destruct (is_stream op) eqn:S.
    + reflexivity.
    + unfold exec. rewrite (invoke_promise_op this op w S). reflexivity.
  - rewrite app_nil_r. destruct (unsubscribe_frame s w) as (_ & _ & _ & E & _).
    unfold step, perform. rewrite E. reflexivity.
  - rewrite app_nil_r, step_fires.
    destruct (native_calls w !! c) as [call |]; [| reflexivity].
    destruct (invoke_callback_frame (callback_of ch call) args w) as (_ & _ & E & _).
    rewrite E. reflexivity.
  - rewrite app_nil_r, step_initialize_settles.
    destruct (plugin_calls w !! pc) as [call |]; [| reflexivity].
    destruct (pc_method call), (pc_state call); try reflexivity.
    destruct (run_reactions_frame (pc_reactions call) st
                (exec (settle_plugin pc (settled VNative st)) w))
      as (_ & E & _).
    rewrite E. apply settle_plugin_reaction_targets.
  - rewrite app_nil_r, step_plugin_settles.
    destruct (plugin_calls w !! pc) as [call |]; [| reflexivity].
    destruct (pc_method call), (pc_state call); try reflexivity;
      apply settle_plugin_reaction_targets.
Qed.

Lemma held_targets_step (a : action) (w : world) :
  Permutation (held_targets (step w a)) (held_targets w ++ new_targets w a).
Proof.
  unfold held_targets, new_targets.
  rewrite native_calls_step, reaction_targets_step, map_app.
  rewrite <- !app_assoc. apply Permutation_app_head.
  rewrite !app_assoc. apply Permutation_app_tail, Permutation_app_comm.
Qed.

(** An action adds at most one record, and what it closes over is new. *)
Lemma new_targets_fresh (a : action) (w : world) :
  new_targets w a = []
  \/ new_targets w a = [TPromise (length (promises w))]
  \/ new_targets w a = [TSubscriber (length (subscribers w))].
Proof.
  unfold new_targets.
  destruct a as [this op | [| key |] | this op | s | ev]; cbn; auto;
    destruct (is_stream op); cbn; auto;
    unfold call_target, promise_call; cbn;
    destruct (passes_result op); auto.
Qed.

Lemma new_targets_allocated (a : action) (w : world) :
  Forall (allocated (step w a)) (new_targets w a).
Proof.
  unfold new_targets.
  destruct a as [this op | [| key |] | this op | s | ev]; cbn [new_calls map app];
    try constructor.
  - rewrite exec_perform_call. unfold exec. destruct (is_stream op) eqn:S.
    + constructor.
    + rewrite (invoke_promise_op this op w S). constructor; [| constructor].
      unfold call_target. cbn. destruct (passes_result op); cbn;
        rewrite length_app; cbn; lia.
  - rewrite exec_perform_static. unfold exec. rewrite invoke_initialize.
    cbn. rewrite length_app. cbn. lia.
  - constructor.
  - rewrite exec_perform_subscribe. destruct (is_stream op) eqn:S.
    + constructor; [| constructor]. cbn. rewrite length_app. cbn. lia.
    + unfold exec. rewrite (invoke_promise_op this op w S).
      constructor; [| constructor].
      unfold call_target. cbn. destruct (passes_result op); cbn;
        rewrite length_app; cbn; lia.
Qed.

Lemma scoped_step (a : action) (w : world) : scoped w -> scoped (step w a).
Proof.
  intros (F & A & N). split; [| split].
  - rewrite native_calls_step. apply Forall_app. split; [exact F |].
    apply Forall_forall. intros call H.
    apply list_elem_of_In, new_calls_fresh in H. unfold call_target.
    destruct H as [[-> ->] | [-> ->]]; reflexivity.
  - rewrite (held_targets_step a w). apply Forall_app. split.
    + eapply Forall_impl; [exact A |]. intros x. apply allocated_step.
    + apply new_targets_allocated.
  - rewrite (held_targets_step a w). apply NoDup_app. split; [exact N |].
    split.
    + intros x Hx Hn.
      pose proof (proj1 (Forall_forall _ _) A x Hx) as Ax.
      destruct (allocated_not_fresh w x Ax) as [NP NS].
      destruct (new_targets_fresh a w) as [E | [E | E]]; rewrite E in Hn;
        [inversion Hn | |]; apply list_elem_of_singleton in Hn; contradiction.
    + destruct (new_targets_fresh a w) as [E | [E | E]]; rewrite E;
        [constructor | |]; apply NoDup_singleton.
Qed.

Lemma scoped_empty : scoped empty_world.
Proof. repeat split; constructor. Qed.

Lemma scoped_run (t : list action) (w : world) : scoped w -> scoped (run t w).
Proof.
  revert w. induction t as [| a t IH]; intros w H; [exact H |].
  apply IH, scoped_step, H.
Qed.

Lemma lookup_map {A B} (f : A -> B) (l : list A) (i : nat) (x : A) :
  l !! i = Some x -> map f l !! i = Some (f x).
Proof.
  revert i. induction l as [| y l IH]; intros [| i] L; try discriminate L.
  - injection L as ->. reflexivity.
  - exact (IH i L).
Qed.

Lemma scoped_sole_owner (w : world) (c : nat) (call : native_call) :
  scoped w -> native_calls w !! c = Some call ->
  sole_owner w c (call_target call).
Proof.
  intros (F & A & N) L.
  apply NoDup_app in N. destruct N as (N1 & N2 & _).
  assert (In (call_target call) (map call_target (native_calls w))) as Hin.
  { apply in_map, list_elem_of_In, list_elem_of_lookup. eauto. }
  split; [| split; [| split]].
  - apply (proj1 (Forall_forall _ _) A). apply list_elem_of_In.
    unfold held_targets. apply in_app_iff. auto.
  - exists call. split; [exact L |]. split; [reflexivity |].
    exact (proj1 (Forall_lookup _ _) F c call L).
  - intros c' call' L' D.
    assert (cb_target (nc_success call') <> call_target call) as NE.
    { intros E. apply D.
      apply (NoDup_lookup _ _ _ (call_target call) N1).
      - replace (call_target call) with (call_target call') by exact E.
        apply lookup_map, L'.
      - apply lookup_map, L. }
    split; [exact NE |].
    rewrite (proj1 (Forall_lookup _ _) F c' call' L'). exact NE.
  - intros pc pcall r L' R E.
    apply (N2 (call_target call)); [apply list_elem_of_In, Hin |].
    apply list_elem_of_In. unfold reaction_targets. apply in_flat_map.
    exists pcall. split.
    + apply list_elem_of_In, list_elem_of_lookup. eauto.
    + rewrite <- E. apply in_map, R.
Qed.

(** ** The first callback decides, whatever else happens *)

Lemma first_firing_skip (c : nat) (a : action) (t : list action) :
  (forall ch args, a <> Native (Fires c ch args)) ->
  first_firing c (a :: t) = first_firing c t.
Proof.
  intros N. destruct a as [| | | | [c' ch args | |]]; try reflexivity.
  cbn. destruct (Nat.eqb_spec c' c) as [-> | D]; [| reflexivity].
  destruct (N ch args). reflexivity.
Qed.

Lemma fires_or_not (c : nat) (a : action) :
  (exists ch args, a = Native (Fires c ch args))
  \/ (forall ch args, a <> Native (Fires c ch args)).
Proof.
  destruct a as [| | | | [c' ch args | |]]; try (right; discriminate).
  destruct (decide (c' = c)) as [-> | D]; [left; eauto |].
  right. intros ch' args' [= E _ _]. contradiction.
Qed.

Lemma promise_decided (this : HyperTrack) (op : operation) (c p : nat)
    (t : list action) (w : world) (st : pstate) :
  sole_owner w c (TPromise p) ->
  native_calls w !! c = Some (promise_call this op p) ->
  promises w !! p = Some st ->
  promises (run t w) !! p
  = Some match st with
         | Pending =>
             match first_firing c t with
             | None => Pending
             | Some (ch, args) => outcome op ch args
             end
         | _ => st
         end.
Proof.
  revert w st. induction t as [| a t IH]; intros w st O L P.
  - cbn. rewrite P. destruct st; reflexivity.
  - cbn [run fold_left]. change (fold_left step t ?x) with (run t x).
    assert (native_calls (step w a) !! c = Some (promise_call this op p)) as L'.
    { rewrite native_calls_step. apply lookup_app_l_Some, L. }
    pose proof (sole_owner_step a w c _ O) as O'.
    destruct (fires_or_not c a) as [(ch & args & ->) | NF].
    + cbn [first_firing]. rewrite Nat.eqb_refl.
      assert (step w (Native (Fires c ch args))
              = exec (settle p (outcome op ch args)) w) as E.
      { rewrite step_fires, L. unfold exec, promise_call, outcome.
        destruct ch; cbn; [destruct (passes_result op) |]; reflexivity. }
      destruct st as [| v | e].
      * rewrite (IH _ (outcome op ch args) O' L').
        -- destruct ch; reflexivity.
        -- rewrite E. apply settle_pending, P.
      * rewrite (IH _ (Fulfilled v) O' L'); [reflexivity |].
        rewrite E. apply settle_not_pending; [exact P | discriminate].
      * rewrite (IH _ (Rejected e) O' L'); [reflexivity |].
        rewrite E. apply settle_not_pending; [exact P | discriminate].
    + rewrite (first_firing_skip c a t NF).
      apply (IH _ st O' L').
      rewrite frame_promise; [exact P | apply lookup_lt_Some in P; exact P |].
      intros T. destruct (sole_owner_touches a w c _ O T)
        as [(ch & args & ->) | (s & _ & [=])].
      destruct (NF ch args). reflexivity.
Qed.

(** ** A subscriber hears its own native call, in order *)

Lemma receive_fires (this : HyperTrack) (op : operation) (c s : nat)
    (ch : channel) (args : list value) (w : world) (sub : subscriber) :
  native_calls w !! c = Some (stream_call this op s) ->
  subscribers w !! s = Some sub ->
  subscribers (step w (Native (Fires c ch args))) !! s
  = Some (receive c s sub (Native (Fires c ch args))).
Proof.
  intros L P. rewrite step_fires, L. cbn [receive]. rewrite Nat.eqb_refl.
  pose proof (lookup_lt_Some _ _ _ P) as B.
  destruct ch; cbn [callback_of stream_call nc_success nc_failure invoke_callback];
    unfold exec, observer_next, observer_error, modify; cbn [snd]; rewrite P;
    destruct sub as [evs []]; cbn; try exact P;
    apply list_lookup_insert_eq, B.
Qed.

Lemma receive_unsubscribe (c s : nat) (w : world) (sub : subscriber) :
  subscribers w !! s = Some sub ->
  subscribers (step w (Unsubscribe s)) !! s
  = Some (receive c s sub (Unsubscribe s)).
Proof.
  intros P. cbn [receive]. rewrite Nat.eqb_refl.
  unfold step, exec, perform, unsubscribe, modify. cbn [snd]. rewrite P. cbn.
  apply list_lookup_insert_eq. apply lookup_lt_Some in P. exact P.
Qed.

Lemma receive_other (c s : nat) (sub : subscriber) (a : action) :
  (forall ch args, a <> Native (Fires c ch args)) -> a <> Unsubscribe s ->
  receive c s sub a = sub.
Proof.
  intros NF NU. destruct a as [| | | s' | [c' ch args | |]]; try reflexivity; cbn.
  - destruct (Nat.eqb_spec s' s) as [-> | D]; [contradiction | reflexivity].
  - destruct (Nat.eqb_spec c' c) as [-> | D]; [| reflexivity].
    destruct (NF ch args). reflexivity.
Qed.

Lemma unsubscribes_or_not (s : nat) (a : action) :
  a = Unsubscribe s \/ a <> Unsubscribe s.
Proof.
  destruct a as [| | | s' |]; try (right; discriminate).
  destruct (decide (s' = s)) as [-> | D]; [left; reflexivity |].
  right. intros [= E]. contradiction.
Qed.

Lemma subscriber_received (this : HyperTrack) (op : operation) (c s : nat)
    (t : list action) (w : world) (sub : subscriber) :
  sole_owner w c (TSubscriber s) ->
  native_calls w !! c = Some (stream_call this op s) ->
  subscribers w !! s = Some sub ->
  subscribers (run t w) !! s = Some (fold_left (receive c s) t sub).
Proof.
  revert w sub. induction t as [| a t IH]; intros w sub O L P; [exact P |].
  cbn [run fold_left]. change (fold_left step t ?x) with (run t x).
  assert (native_calls (step w a) !! c = Some (stream_call this op s)) as L'.
  { rewrite native_calls_step. apply lookup_app_l_Some, L. }
  pose proof (sole_owner_step a w c _ O) as O'.
  apply (IH _ _ O' L').
  destruct (fires_or_not c a) as [(ch & args & ->) | NF].
  - apply (receive_fires this op), P. exact L.
  - destruct (unsubscribes_or_not s a) as [-> | NU].
    + apply receive_unsubscribe, P.
    + rewrite (receive_other c s sub a NF NU).
      rewrite frame_subscriber; [exact P | apply lookup_lt_Some in P; exact P |].
      intros T. destruct (sole_owner_touches a w c _ O T)
        as [(ch & args & ->) | (s' & -> & [= <-])].
      * destruct (NF ch args). reflexivity.
      * contradiction.
Qed.

Lemma target_eq_or (x y : target) : x = y \/ x <> y.
Proof.
  destruct x as [p | s], y as [p' | s']; try (right; discriminate).
  - destruct (decide (p = p')) as [-> | D]; [auto | right; congruence].
  - destruct (decide (s = s')) as [-> | D]; [auto | right; congruence].
Qed.

Lemma stopped_step (a : action) (w : world) (s : nat) (sub : subscriber) :
  subscribers w !! s = Some sub -> isStopped sub = true ->
  subscribers (step w a) !! s = Some sub.
Proof.
  intros P St. pose proof (lookup_lt_Some _ _ _ P) as B.
  assert (~ In (TSubscriber s) (touches w a) ->
          subscribers (step w a) !! s = Some sub) as Frame.
  { intros N. rewrite frame_subscriber; assumption. }
  destruct a as [this op | op | this op | s' | [c ch args | pc st | pc st]];
    try (apply Frame; cbn; tauto).
  - destruct (decide (s' = s)) as [-> | D].
    + unfold step, exec, perform, unsubscribe, modify. cbn [snd]. rewrite P. cbn.
      rewrite list_lookup_insert_eq by exact B.
      destruct sub as [evs st]. cbn in St. subst st. reflexivity.
    + apply Frame. cbn. intros [[= E] | []]. contradiction.
  - destruct (native_calls w !! c) as [call |] eqn:L.
    + destruct (target_eq_or (cb_target (callback_of ch call)) (TSubscriber s))
        as [E | D].
      * rewrite step_fires, L.
        destruct (callback_of ch call); try discriminate E; injection E as ->;
          unfold exec, invoke_callback, observer_next, observer_error, modify;
          cbn [snd]; rewrite P, St; exact P.
      * apply Frame. cbn. rewrite L. intros [E | []]. contradiction.
    + apply Frame. cbn. rewrite L. tauto.
  - apply Frame. cbn. destruct (plugin_calls w !! pc) as [call |]; [| tauto].
    intros H. apply in_map_iff in H. destruct H as ([outer] & E & _).
    discriminate E.
Qed.

Lemma plugin_calls_length_step (a : action) (w : world) :
  length (plugin_calls (step w a))
  = length (plugin_calls w)
    + match a with CallStatic _ => 1 | _ => 0 end.
Proof.
  destruct a as [this op | op | this op | s | [c ch args | pc st | pc st]].
  - rewrite exec_perform_call. unfold exec. destruct (is_stream op) eqn:S.
    + destruct (invoke_stream_op this op w S) as (o & E & _). rewrite E. cbn. lia.
    + rewrite (invoke_promise_op this op w S). cbn. lia.
  - rewrite exec_perform_static. unfold exec.
    destruct op as [| key |];
      rewrite ?invoke_enableDebugLogging, ?invoke_initialize, ?invoke_getBlockers;
      cbn; rewrite length_app; reflexivity.
  - rewrite exec_perform_subscribe. destruct (is_stream op) eqn:S.
    + cbn. lia.
    + unfold exec. rewrite (invoke_promise_op this op w S). cbn. lia.
  - destruct (unsubscribe_frame s w) as (_ & _ & _ & E & _).
    unfold step, perform. rewrite E. lia.
  - rewrite step_fires. destruct (native_calls w !! c) as [call |]; [| lia].
    destruct (invoke_callback_frame (callback_of ch call) args w) as (_ & _ & E & _).
    rewrite E. lia.
  - rewrite step_initialize_settles.
    destruct (plugin_calls w !! pc) as [call |]; [| lia].
    destruct (pc_method call), (pc_state call); try lia.
    destruct (run_reactions_frame (pc_reactions call) st
                (exec (settle_plugin pc (settled VNative st)) w))
      as (_ & E & _).
    rewrite E. prim; rewrite ?length_insert; lia.
  - rewrite step_plugin_settles.
    destruct (plugin_calls w !! pc) as [call |]; [| lia].
    destruct (pc_method call), (pc_state call); try lia;
      prim; rewrite ?length_insert; lia.
Qed.

Lemma new_calls_length (a : action) (w : world) :
  length (new_calls w a) = if calls_native a then 1 else 0.
Proof.
  destruct a as [this op | op | this op | s | ev]; cbn; try reflexivity;
    destruct (is_stream op); reflexivity.
Qed.

(** * Further theorems *)

(** X1.  The [Coordinates] constructor throws the validation error exactly
    when the latitude lies below -90 or above 90 or the longitude lies below
    -180 or above 180, infinities included; otherwise it returns.  The
    bounds themselves are accepted, and the world is left as it was either
    way. *)
Theorem Coordinates_range_exact (latitude longitude : number) (w : world) :
  (new_Coordinates latitude longitude w = (Throw validation_error, w)
   <-> beyond (-90) 90 latitude \/ beyond (-180) 180 longitude)
  /\ (new_Coordinates latitude longitude w = (Normal mkCoordinates, w)
      <-> ~ beyond (-90) 90 latitude /\ ~ beyond (-180) 180 longitude)
  /\ new_Coordinates (num 90) (num (-180)) w = (Normal mkCoordinates, w)
  /\ new_Coordinates (num (-90)) (num 180) w = (Normal mkCoordinates, w)
  /\ new_Coordinates PosInfinity (num 0) w = (Throw validation_error, w)
  /\ new_Coordinates (num 0) NegInfinity w = (Throw validation_error, w).
Proof.
  split; [apply new_Coordinates_throws_iff |].
  split; [apply new_Coordinates_succeeds_iff |].
  repeat split.
Qed.

(** X2.  In every history that starts from a world where it holds, and so
    in every history from the initial world, the two callbacks of each
    native call close over one and the same promise or subscriber, that
    promise or subscriber exists, and no two native calls close over the
    same one: every call has a promise or subscriber of its own. *)
Theorem every_call_has_its_own_target (t : list action) (w : world)
    (c1 c2 : nat) (call1 call2 : native_call) :
  scoped w ->
  native_calls (run t w) !! c1 = Some call1 ->
  native_calls (run t w) !! c2 = Some call2 ->
  scoped (run t w)
  /\ cb_target (nc_failure call1) = cb_target (nc_success call1)
  /\ allocated (run t w) (cb_target (nc_success call1))
  /\ (cb_target (nc_success call1) = cb_target (nc_success call2) -> c1 = c2).
Proof.
  intros S L1 L2. pose proof (scoped_run t w S) as S'.
  destruct (scoped_sole_owner _ c1 call1 S' L1)
    as (A & (call & L & _ & T) & Others & _).
  rewrite L1 in L. injection L as <-.
  split; [exact S' |]. split; [exact T |]. split; [exact A |].
  intros E. destruct (decide (c2 = c1)) as [-> | D]; [reflexivity |].
  destruct (Others c2 call2 L2 D) as [N _]. destruct N. symmetry. exact E.
Qed.

Lemma every_call_has_its_own_target_witness :
  scoped
    (run [Call (new_HyperTrack 0) getDeviceId; Call (new_HyperTrack 0) start]
       empty_world).
Proof.
  apply (every_call_has_its_own_target
           [Call (new_HyperTrack 0) getDeviceId; Call (new_HyperTrack 0) start]
           empty_world 0 1
           (mkNativeCall 0 Cordova_getDeviceId [] (ResolveWithArg 0) (RejectWithArg 0))
           (mkNativeCall 0 Cordova_start [] (ResolveVoid 1) (RejectWithArg 1))).
  - repeat split; constructor.
  - reflexivity.
  - reflexivity.
Defined.

(** X3.  The promise of a method call is decided by the first callback the
    native layer invokes for that very call, whatever else happens before,
    between and after: other method calls, subscriptions, callbacks of other
    calls, plugin promises settling.  Until then it stays pending; every
    later callback of the call is ignored. *)
Theorem first_callback_decides (this : HyperTrack) (op : operation)
    (w w1 : world) (p : promise_ref) (t : list action) :
  scoped w ->
  invoke this op w = (Normal (RPromise p), w1) ->
  promise_state (run t w1) p
  = Some match first_firing (length (native_calls w)) t with
         | None => Pending
         | Some (ch, args) => outcome op ch args
         end.
Proof.
  intros Sc H.
  assert (is_stream op = false) as S.
  { destruct op; try reflexivity; discriminate H. }
  assert (w1 = step w (Call this op)) as E1.
  { rewrite exec_perform_call. unfold exec. rewrite H. reflexivity. }
  rewrite (invoke_promise_op this op w S) in H. injection H as <- <-.
  assert (native_calls (step w (Call this op)) !! length (native_calls w)
          = Some (promise_call this op (length (promises w)))) as L.
  { rewrite <- E1. apply lookup_fresh. }
  pose proof (scoped_sole_owner _ _ _ (scoped_step (Call this op) w Sc) L) as O.
  rewrite E1. unfold promise_state.
  rewrite (promise_decided this op (length (native_calls w))
             (length (promises w)) t _ Pending).
  - reflexivity.
  - replace (TPromise (length (promises w)))
      with (call_target (promise_call this op (length (promises w)))); [exact O |].
    unfold call_target, promise_call. cbn. destruct (passes_result op); reflexivity.
  - exact L.
  - rewrite <- E1. apply lookup_fresh.
Qed.

Lemma first_callback_decides_witness :
  promise_state
    (run [Call (new_HyperTrack 0) start;
          Native (Fires 1 Failure [VError Error_ "no permission"]);
          SubscribeTo (new_HyperTrack 0) trackingStateChange;
          Native (Fires 0 Success [VString "device-123"]);
          Native (Fires 0 Failure [VError Error_ "late"])]
       (exec (invoke (new_HyperTrack 0) getDeviceId) empty_world))
    (FacadePromise 0)
  = Some (Fulfilled (VString "device-123")).
Proof.
  apply (first_callback_decides (new_HyperTrack 0) getDeviceId empty_world).
  - repeat split; constructor.
  - reflexivity.
Defined.

(** X4.  What a subscriber of a stream method is handed is decided by the
    callbacks of the native call its subscription made, in the order they
    are invoked, and by its own unsubscription, whatever else happens in
    between: each success callback hands it one event, the first failure
    callback hands it the error and closes it, and once closed or
    unsubscribed it is handed nothing. *)
Theorem subscriber_hears_its_own_call (this : HyperTrack) (op : operation)
    (o : Observable) (w0 w0' w : world) (t : list action) :
  scoped w ->
  invoke this op w0 = (Normal (RObservable o), w0') ->
  subscribers (run t (exec (subscribe o) w)) !! length (subscribers w)
  = Some (fold_left
            (receive (length (native_calls w)) (length (subscribers w)))
            t (mkSubscriber [] false)).
Proof.
  intros Sc H.
  pose proof (returns_observable_is_stream _ _ _ _ _ H) as S.
  destruct (subscribe_stream this op w0 w0' w o H) as [_ Sub].
  assert (exec (subscribe o) w = step w (SubscribeTo this op)) as E1.
  { rewrite exec_perform_subscribe, S. unfold exec. rewrite Sub. reflexivity. }
  rewrite E1.
  assert (native_calls (step w (SubscribeTo this op)) !! length (native_calls w)
          = Some (stream_call this op (length (subscribers w)))) as L.
  { rewrite exec_perform_subscribe, S. apply lookup_fresh. }
  pose proof (scoped_sole_owner _ _ _ (scoped_step (SubscribeTo this op) w Sc) L)
    as O.
  apply (subscriber_received this op); [exact O | exact L |].
  rewrite exec_perform_subscribe, S. apply lookup_fresh.
Qed.

Lemma subscriber_hears_its_own_call_witness :
  subscribers
    (run [Native (Fires 0 Success [VBool true]);
          Call (new_HyperTrack 0) disposeTrackingState;
          Native (Fires 1 Failure [VError Error_ "dispose failed"]);
          Native (Fires 0 Success [VBool false]);
          Native (Fires 0 Failure [VError Error_ "lost"]);
          Native (Fires 0 Success [VBool true])]
       (exec (subscribe (HyperTrack_trackingStateChange (new_HyperTrack 0)))
          empty_world))
    !! 0
  = Some (mkSubscriber
            [Next (VBool true); Next (VBool false); Error (VError Error_ "lost")]
            true).
Proof.
  apply (subscriber_hears_its_own_call (new_HyperTrack 0) trackingStateChange
           (HyperTrack_trackingStateChange (new_HyperTrack 0))
           empty_world empty_world empty_world).
  - repeat split; constructor.
  - reflexivity.
Defined.

(** X5.  A subscriber that has been closed, by an error or by its
    unsubscription, stays closed and is handed nothing more, whatever
    happens afterwards. *)
Theorem closed_subscriber_stays_closed (t : list action) (w : world) (s : nat)
    (sub : subscriber) :
  subscribers w !! s = Some sub -> isStopped sub = true ->
  subscribers (run t w) !! s = Some sub.
Proof.
  revert w. induction t as [| a t IH]; intros w P St; [exact P |].
  apply IH; [| exact St]. apply stopped_step; assumption.
Qed.

Lemma closed_subscriber_stays_closed_witness :
  subscribers
    (run [Native (Fires 0 Success [VString "available"]);
          SubscribeTo (new_HyperTrack 0) availabilityStateChange;
          Native (Fires 0 Failure [VError Error_ "again"])]
       (run [SubscribeTo (new_HyperTrack 0) availabilityStateChange;
             Unsubscribe 0]
          empty_world))
    !! 0
  = Some (mkSubscriber [] true).
Proof.
  apply closed_subscriber_stays_closed; reflexivity.
Defined.

(** X6.  The facade makes exactly one call on a native SDK instance for each
    call of a promise-returning method and for each subscription, and none
    for anything else: not for obtaining an observable, not for an
    unsubscription, not when a callback is invoked.  It makes exactly one
    plugin call for each call of a static method.  Calls once made stay on
    record unchanged. *)
Theorem one_native_call_per_request (t : list action) (w : world) :
  length (native_calls (run t w))
  = length (native_calls w) + length (List.filter calls_native t)
  /\ length (plugin_calls (run t w))
     = length (plugin_calls w)
       + length (List.filter
                   (fun a => match a with CallStatic _ => true | _ => false end)
                   t)
  /\ exists later, native_calls (run t w) = native_calls w ++ later.
Proof.
  revert w. induction t as [| a t IH]; intros w.
  - cbn. repeat split; try lia. exists []. symmetry. apply app_nil_r.
  - cbn [run fold_left]. change (fold_left step t ?x) with (run t x).
    destruct (IH (step w a)) as (I1 & I2 & later & I3).
    rewrite I1, I2, I3, native_calls_step, plugin_calls_length_step.
    rewrite length_app, new_calls_length. cbn [List.filter].
    split; [| split].
    + destruct (calls_native a); cbn; lia.
    + destruct a; cbn; lia.
    + exists (new_calls w a ++ later). rewrite app_assoc. reflexivity.
Qed.

(** X7.  Disposal does not end a stream on the facade's side.  After a
    subscription to a stream method, a call of a disposal method and the
    native layer's answer to it, through either callback, leave the
    subscriber open with nothing handed to it, and a success callback of the
    stream's native call that comes later is still delivered. *)
Theorem disposal_leaves_stream_open (this : HyperTrack) (sop dop : operation)
    (w : world) (ch : channel) (args : list value) (v : value) :
  sop = trackingStateChange \/ sop = availabilityStateChange ->
  dop = disposeTrackingState \/ dop = disposeAvailabilityState ->
  let s := length (subscribers w) in
  let c := length (native_calls w) in
  let disposed :=
    run [SubscribeTo this sop; Call this dop; Native (Fires (S c) ch args)] w in
  subscribers disposed !! s = Some (mkSubscriber [] false)
  /\ promises disposed !! length (promises w) = Some (outcome dop ch args)
  /\ subscribers (step disposed (Native (Fires c Success [v]))) !! s
     = Some (mkSubscriber [Next v] false).
Proof.
  intros Hs Hd s c disposed.
  assert (is_stream sop = true) as St by (apply is_stream_true, Hs).
  assert (is_stream dop = false) as D by (destruct Hd as [-> | ->]; reflexivity).
  assert (disposed
          = mkWorld (promises w ++ [outcome dop ch args])
              (subscribers w ++ [mkSubscriber [] false])
              ((native_calls w ++ [stream_call this sop s])
                 ++ [promise_call this dop (length (promises w))])
              (plugin_calls w)) as E.
  { subst disposed. cbn [run fold_left].
    rewrite exec_perform_subscribe, St, exec_perform_call.
    unfold exec at 1. rewrite (invoke_promise_op this dop _ D).
    unfold subscribed. cbn [snd promises subscribers native_calls plugin_calls].
    replace (S c) with (length (native_calls w ++ [stream_call this sop s]))
      by (rewrite length_app; cbn; lia).
    unfold step, exec, perform. rewrite fires_fresh_promise.
    unfold outcome. reflexivity. }
  rewrite E. cbn [promises subscribers].
  split; [apply lookup_fresh |]. split; [apply lookup_fresh |].
  rewrite step_fires. cbn [native_calls].
  rewrite (lookup_app_l_Some _ _ _ _ (lookup_fresh (native_calls w) _)).
  cbn [callback_of stream_call nc_success invoke_callback].
  unfold exec, observer_next, modify, set_subscribers. cbn [snd subscribers].
  subst s. rewrite lookup_fresh. cbn. rewrite insert_fresh. apply lookup_fresh.
Qed.

Lemma disposal_leaves_stream_open_witness :
  subscribers
    (step
       (run [SubscribeTo (new_HyperTrack 0) trackingStateChange;
             Call (new_HyperTrack 0) disposeTrackingState;
             Native (Fires 1 Success [])]
          empty_world)
       (Native (Fires 0 Success [VBool true])))
    !! 0
  = Some (mkSubscriber [Next (VBool true)] false).
Proof.
  apply (disposal_leaves_stream_open (new_HyperTrack 0) trackingStateChange
           disposeTrackingState empty_world Success [] (VBool true)).
  - left. reflexivity.
  - left. reflexivity.
Defined.

Lemma getBlockers_settles (w : world) (s : settlement value) :
  step (exec (invoke_static getBlockers) w)
    (Native (PluginSettles (length (plugin_calls w)) s))
  = mkWorld (promises w) (subscribers w) (native_calls w)
      (plugin_calls w ++ [mkPluginCall Plugin_getBlockers [] (settled id s) []]).
Proof.
  unfold exec at 1. rewrite invoke_getBlockers. cbn [snd].
  unfold step, exec, perform, native_step. cbn [plugin_calls].
  rewrite lookup_fresh. cbn [pc_method pc_state].
  unfold settle_plugin, modify, set_plugin_calls. cbn.
  rewrite lookup_fresh, insert_fresh. reflexivity.
Qed.

(** X8.  The promise a static method returns, from [initialize] or from
    [getBlockers], starts pending and settles at most once: once fulfilled
    or rejected it stays as it is in every later history.  The promise of
    [getBlockers] is the plugin's own promise: the facade makes no promise
    for it and calls no SDK instance, and it settles with exactly the value
    or the error the native layer settles it with. *)
Theorem static_promises_settle_once (op : static_operation) (w : world)
    (p : promise_ref) (t1 t2 : list action) (st : pstate)
    (s : settlement value) :
  eval (invoke_static op) w = Normal (RPromise p) ->
  let w1 := exec (invoke_static op) w in
  let blockers := exec (invoke_static getBlockers) w in
  let pc := length (plugin_calls w) in
  promise_state w1 p = Some Pending
  /\ (promise_state (run t1 w1) p = Some st -> st <> Pending ->
      promise_state (run (t1 ++ t2) w1) p = Some st)
  /\ eval (invoke_static getBlockers) w = Normal (RPromise (PluginPromise pc))
  /\ promises blockers = promises w
  /\ native_calls blockers = native_calls w
  /\ promise_state (step blockers (Native (PluginSettles pc s))) (PluginPromise pc)
     = Some (settled id s).
Proof.
  intros H w1 blockers pc. split; [| split].
  - subst w1. unfold eval, exec in *. destruct op as [| key |].
    + rewrite invoke_enableDebugLogging in H. discriminate H.
    + rewrite invoke_initialize in *. injection H as <-. apply lookup_fresh.
    + rewrite invoke_getBlockers in *. injection H as <-.
      unfold promise_state. cbn. rewrite lookup_fresh. reflexivity.
  - intros P N. rewrite run_app. apply (stable_run t2 (run t1 w1)); assumption.
  - subst blockers pc. rewrite getBlockers_settles.
    unfold eval, exec. rewrite invoke_getBlockers.
    repeat split. unfold promise_state. cbn [plugin_calls].
    rewrite lookup_fresh. reflexivity.
Qed.

Lemma static_promises_settle_once_witness :
  promise_state
    (run ([Native (InitializeSettles 0 (Reject (VError Error_ "invalid key")))]
          ++ [Native (InitializeSettles 0 (Fulfil 7))])
       (exec (invoke_static (initialize "pk_live_abc")) empty_world))
    (FacadePromise 0)
  = Some (Rejected (VError Error_ "invalid key")).
Proof.
  apply (static_promises_settle_once (initialize "pk_live_abc") empty_world
           (FacadePromise 0) _ _ _ (Fulfil VUndefined)).
  - reflexivity.
  - reflexivity.
  - discriminate.
Defined.

(** ** The promise of [initialize] *)

Lemma NoDup_flat_map_lookup {A B} (f : A -> list B) (l : list A) (i j : nat)
    (x y : A) (b : B) :
  NoDup (flat_map f l) -> l !! i = Some x -> l !! j = Some y ->
  In b (f x) -> In b (f y) -> i = j.
Proof.
  revert i j. induction l as [| z l IH]; intros i j N Li Lj Hx Hy;
    [discriminate Li |].
  cbn [flat_map] in N. apply NoDup_app in N. destruct N as (_ & Dis & N).
  assert (forall k u, l !! k = Some u -> In b (f u) -> In b (flat_map f l)) as Mem.
  { intros k u Lk Hu. apply in_flat_map. exists u. split; [| exact Hu].
    apply list_elem_of_In, list_elem_of_lookup. eauto. }
  destruct i as [| i], j as [| j]; cbn in Li, Lj.
  - reflexivity.
  - injection Li as ->. exfalso.
    apply (Dis b); apply list_elem_of_In; [exact Hx | exact (Mem j y Lj Hy)].
  - injection Lj as ->. exfalso.
    apply (Dis b); apply list_elem_of_In; [exact Hy | exact (Mem i x Li Hx)].
  - f_equal. exact (IH i j N Li Lj Hx Hy).
Qed.

(** In a scoped world, only the settlement of a plugin call's promise
    touches what the reactions chained on it close over. *)
Lemma reaction_touches (a : action) (w : world) (pc : nat) (pcall : plugin_call)
    (r : reaction) :
  scoped w -> plugin_calls w !! pc = Some pcall -> In r (pc_reactions pcall) ->
  In (reaction_target r) (touches w a) ->
  exists s, a = Native (InitializeSettles pc s).
Proof.
  intros (F & _ & N) L R T.
  apply NoDup_app in N. destruct N as (_ & Dis & N).
  assert (In (reaction_target r) (reaction_targets (plugin_calls w))) as Held.
  { apply in_flat_map. exists pcall. split; [| apply in_map, R].
    apply list_elem_of_In, list_elem_of_lookup. eauto. }
  destruct a as [this op | op | this op | s | [c ch args | pc' st | pc' st]];
    cbn [touches] in T; try contradiction.
  - destruct r. destruct T as [[=] | []].
  - destruct (native_calls w !! c) as [call |] eqn:Lc; [| contradiction].
    destruct T as [T | []]. exfalso.
    apply (Dis (reaction_target r)); [| apply list_elem_of_In, Held].
    apply list_elem_of_In, in_map_iff. exists call. split.
    + rewrite <- T. unfold call_target. destruct ch; [reflexivity |].
      symmetry. exact (proj1 (Forall_lookup _ _) F c call Lc).
    + apply list_elem_of_In, list_elem_of_lookup. eauto.
  - destruct (plugin_calls w !! pc') as [pcall' |] eqn:L'; [| contradiction].
    exists st. do 2 f_equal.
    apply (NoDup_flat_map_lookup _ _ pc' pc pcall' pcall (reaction_target r) N L' L);
      [exact T | apply in_map, R].
Qed.

(** The record of an [initialize] call changes only when its promise is
    first settled. *)
Lemma initialize_record_step (a : action) (w : world) (pc : nat)
    (args : list value) (pst : pstate) (rs : list reaction) :
  plugin_calls w !! pc = Some (mkPluginCall Plugin_initialize args pst rs) ->
  plugin_calls (step w a) !! pc
  = Some (mkPluginCall Plugin_initialize args
            match a, pst with
            | Native (InitializeSettles pc' s), Pending =>
                if Nat.eqb pc' pc then settled VNative s else pst
            | _, _ => pst
            end
            rs).
Proof.
  intros L. pose proof (lookup_lt_Some _ _ _ L) as B.
  assert (forall pc' st,
             pc' <> pc ->
             plugin_calls (exec (settle_plugin pc' st) w) !! pc
             = Some (mkPluginCall Plugin_initialize args pst rs)) as Other.
  { intros pc' st D. unfold exec, settle_plugin, modify. cbn [snd].
    destruct (plugin_calls w !! pc'); [| exact L].
    cbn. rewrite list_lookup_insert_ne by exact D. exact L. }
  destruct a as [this op | op | this op | s | [c ch args' | pc' st | pc' st]].
  - destruct (step_caller (Call this op) w I) as (ps & subs & pcs & E & _).
    rewrite E. cbn. rewrite (lookup_app_l_Some _ _ _ _ L). destruct pst; reflexivity.
  - destruct (step_caller (CallStatic op) w I) as (ps & subs & pcs & E & _).
    rewrite E. cbn. rewrite (lookup_app_l_Some _ _ _ _ L). destruct pst; reflexivity.
  - destruct (step_caller (SubscribeTo this op) w I) as (ps & subs & pcs & E & _).
    rewrite E. cbn. rewrite (lookup_app_l_Some _ _ _ _ L). destruct pst; reflexivity.
  - destruct (unsubscribe_frame s w) as (_ & _ & _ & E & _).
    unfold step, perform. rewrite E, L. destruct pst; reflexivity.
  - rewrite step_fires. destruct (native_calls w !! c) as [call |].
    + destruct (invoke_callback_frame (callback_of ch call) args' w)
        as (_ & _ & E & _).
      rewrite E, L. destruct pst; reflexivity.
    + rewrite L. destruct pst; reflexivity.
  - rewrite step_initialize_settles.
    destruct (Nat.eqb_spec pc' pc) as [-> | D].
    + rewrite L. cbn [pc_method pc_state pc_reactions].
      destruct pst; try exact L.
      destruct (run_reactions_frame rs st
                  (exec (settle_plugin pc (settled VNative st)) w))
        as (_ & E & _).
      rewrite E. unfold exec, settle_plugin, modify. cbn [snd]. rewrite L. cbn.
      apply list_lookup_insert_eq, B.
    + destruct (plugin_calls w !! pc') as [call |];
        [| rewrite L; destruct pst; reflexivity].
      destruct (pc_method call), (pc_state call);
        try (rewrite L; destruct pst; reflexivity).
      destruct (run_reactions_frame (pc_reactions call) st
                  (exec (settle_plugin pc' (settled VNative st)) w))
        as (_ & E & _).
      rewrite E, (Other pc' _ D). destruct pst; reflexivity.
  - rewrite step_plugin_settles.
    destruct (decide (pc' = pc)) as [-> | D].
    + rewrite L. cbn [pc_method]. rewrite L. destruct pst; reflexivity.
    + destruct (plugin_calls w !! pc') as [call |];
        [| rewrite L; destruct pst; reflexivity].
      destruct (pc_method call), (pc_state call);
        rewrite ?(Other pc' _ D), ?L; destruct pst; reflexivity.
Qed.

Lemma settles_or_not (pc : nat) (a : action) :
  (exists s, a = Native (InitializeSettles pc s))
  \/ (forall s, a <> Native (InitializeSettles pc s)).
Proof.
  destruct a as [| | | | [| pc' s |]]; try (right; discriminate).
  destruct (decide (pc' = pc)) as [-> | D]; [left; eauto |].
  right. intros s' [= E _]. contradiction.
Qed.

Lemma first_settlement_skip (pc : nat) (a : action) (t : list action) :
  (forall s, a <> Native (InitializeSettles pc s)) ->
  first_settlement pc (a :: t) = first_settlement pc t.
Proof.
  intros N. destruct a as [| | | | [| pc' s |]]; try reflexivity.
  cbn. destruct (Nat.eqb_spec pc' pc) as [-> | D]; [| reflexivity].
  destruct (N s). reflexivity.
Qed.

Lemma initialize_decided (pc p : nat) (args : list value) (t : list action)
    (w : world) (pst st : pstate) :
  scoped w ->
  plugin_calls w !! pc
  = Some (mkPluginCall Plugin_initialize args pst [WrapInstanceOrReject p]) ->
  promises w !! p = Some st ->
  (pst = Pending -> st = Pending) ->
  promises (run t w) !! p
  = Some match pst with
         | Pending =>
             match first_settlement pc t with
             | None => Pending
             | Some s => wrapped s
             end
         | _ => st
         end.
Proof.
  revert w pst st. induction t as [| a t IH]; intros w pst st Sc L P Inv.
  - cbn. rewrite P. destruct pst; try reflexivity. rewrite Inv; reflexivity.
  - cbn [run fold_left]. change (fold_left step t ?x) with (run t x).
    pose proof (scoped_step a w Sc) as Sc'.
    pose proof (initialize_record_step a w pc _ _ _ L) as L'.
    destruct (settles_or_not pc a) as [(s & ->) | NS].
    + cbn [first_settlement]. rewrite Nat.eqb_refl in *.
      destruct pst as [| v | e].
      * rewrite (IH _ _ (wrapped s) Sc' L').
        -- destruct s; reflexivity.
        -- rewrite step_initialize_settles, L.
           cbn [pc_method pc_state pc_reactions].
           unfold exec at 1. rewrite run_reactions_cons. cbn [run_reactions ret snd].
           unfold exec at 1. rewrite run_reaction_settle.
           apply settle_pending.
           destruct (settle_plugin_frame pc (settled VNative s) w) as (E & _).
           rewrite E, P, (Inv eq_refl). reflexivity.
        -- destruct s; discriminate.
      * rewrite (IH _ _ st Sc' L'); [reflexivity | | discriminate].
        rewrite step_initialize_settles, L. exact P.
      * rewrite (IH _ _ st Sc' L'); [reflexivity | | discriminate].
        rewrite step_initialize_settles, L. exact P.
    + rewrite (first_settlement_skip pc a t NS).
      assert (match a, pst with
              | Native (InitializeSettles pc' s), Pending =>
                  if Nat.eqb pc' pc then settled VNative s else pst
              | _, _ => pst
              end = pst) as E.
      { destruct a as [| | | | [| pc' s |]], pst; try reflexivity.
        destruct (Nat.eqb_spec pc' pc) as [-> | D]; [| reflexivity].
        destruct (NS s). reflexivity. }
      rewrite E in L'.
      apply (IH _ _ st Sc' L'); [| exact Inv].
      rewrite frame_promise; [exact P | apply lookup_lt_Some in P; exact P |].
      intros T.
      destruct (reaction_touches a w pc _ (WrapInstanceOrReject p) Sc L
                  (or_introl eq_refl) T) as [s ->].
      destruct (NS s). reflexivity.
Qed.

(** X9.  The promise [initialize] returns is decided by the first settlement
    of the promise of the plugin call it made, whatever else happens before,
    between and after, other calls of [initialize] included: fulfilled with
    a [HyperTrack] of exactly the SDK instance the native layer resolved
    with, or rejected with exactly the error.  Until then it stays pending;
    a later settlement changes nothing. *)
Theorem initialize_follows_its_plugin_call (publishableKey : string)
    (w : world) (t : list action) :
  scoped w ->
  promise_state (run t (exec (invoke_static (initialize publishableKey)) w))
    (FacadePromise (length (promises w)))
  = Some match first_settlement (length (plugin_calls w)) t with
         | None => Pending
         | Some (Fulfil cordovaInstance) =>
             Fulfilled (VHyperTrack (new_HyperTrack cordovaInstance))
         | Some (Reject err) => Rejected err
         end.
Proof.
  intros Sc.
  assert (exec (invoke_static (initialize publishableKey)) w
          = step w (CallStatic (initialize publishableKey))) as E1
    by (symmetry; apply exec_perform_static).
  pose proof (scoped_step (CallStatic (initialize publishableKey)) w Sc) as Sc'.
  rewrite <- E1 in Sc'. unfold promise_state.
  rewrite (initialize_decided (length (plugin_calls w)) (length (promises w))
             [VString publishableKey] t _ Pending Pending Sc').
  - destruct (first_settlement (length (plugin_calls w)) t) as [[h | e] |];
      reflexivity.
  - unfold exec. rewrite invoke_initialize. apply lookup_fresh.
  - unfold exec. rewrite invoke_initialize. apply lookup_fresh.
  - reflexivity.
Qed.

Lemma initialize_follows_its_plugin_call_witness :
  promise_state
    (run [CallStatic (initialize "pk_test_other");
          Native (InitializeSettles 1 (Reject (VError Error_ "invalid key")));
          Native (InitializeSettles 0 (Fulfil 7));
          Native (InitializeSettles 0 (Reject (VError Error_ "late")))]
       (exec (invoke_static (initialize "pk_live_abc")) empty_world))
    (FacadePromise 0)
  = Some (Fulfilled (VHyperTrack (new_HyperTrack 7))).
Proof.
  apply (initialize_follows_its_plugin_call "pk_live_abc" empty_world).
  repeat split; constructor.
Defined.

(** ** Every native call was asked for *)

Lemma native_calls_run (t : list action) (w : world) :
  exists later, native_calls (run t w) = native_calls w ++ later.
Proof.
  revert w. induction t as [| a t IH]; intros w.
  - exists []. symmetry. apply app_nil_r.
  - destruct (IH (step w a)) as [later E]. cbn [run fold_left].
    change (fold_left step t ?x) with (run t x).
    rewrite E, native_calls_step. exists (new_calls w a ++ later).
    rewrite app_assoc. reflexivity.
Qed.

Lemma new_calls_requested (a : action) (w : world) (call : native_call) :
  In call (new_calls w a) ->
  exists this op,
    (a = Call this op \/ a = SubscribeTo this op)
    /\ nc_target call = cordovaInstanceHandle this
    /\ nc_method call = native_method_of op
    /\ nc_args call = forwarded_args op.
Proof.
  destruct a as [this op | op | this op | s | ev]; cbn [new_calls];
    try contradiction; destruct (is_stream op) eqn:S; try contradiction;
    intros [<- | []]; exists this, op; repeat split; auto.
  destruct op; try discriminate S; reflexivity.
Qed.

(** X11.  Every call the native layer receives on an SDK instance was asked
    for by a caller: in every history, each native call made in it stems
    from a method call or a subscription of that history, goes to the SDK
    instance of the [HyperTrack] the caller used, names the native method of
    that operation and carries the caller's data arguments, unchanged and in
    order.  The facade makes no call of its own accord. *)
Theorem every_native_call_was_requested (t : list action) (w : world) (c : nat)
    (call : native_call) :
  native_calls (run t w) !! c = Some call ->
  length (native_calls w) <= c ->
  exists this op,
    (In (Call this op) t \/ In (SubscribeTo this op) t)
    /\ nc_target call = cordovaInstanceHandle this
    /\ nc_method call = native_method_of op
    /\ nc_args call = forwarded_args op.
Proof.
  revert w. induction t as [| a t IH]; intros w L B.
  - cbn in L. apply lookup_lt_Some in L. lia.
  - cbn [run fold_left] in L. change (fold_left step t ?x) with (run t x) in L.
    destruct (le_lt_dec (length (native_calls (step w a))) c) as [G | G].
    + destruct (IH _ L G) as (this & op & H & R).
      exists this, op. split; [| exact R]. cbn. tauto.
    + destruct (native_calls_run t (step w a)) as [later E].
      rewrite E, lookup_app_l in L by exact G.
      rewrite native_calls_step in L. apply lookup_app_Some in L.
      destruct L as [L | [_ L]]; [apply lookup_lt_Some in L; lia |].
      apply list_elem_of_lookup_2, list_elem_of_In, new_calls_requested in L.
      destruct L as (this & op & [-> | ->] & R);
        exists this, op; (split; [| exact R]); cbn; auto.
Qed.

Lemma every_native_call_was_requested_witness :
  exists this op,
    (In (Call this op)
        [Call (new_HyperTrack 7) (setDeviceName "Elvis Ionic");
         Native (Fires 0 Success [])]
     \/ In (SubscribeTo this op)
          [Call (new_HyperTrack 7) (setDeviceName "Elvis Ionic");
           Native (Fires 0 Success [])])
    /\ 7 = cordovaInstanceHandle this
    /\ Cordova_setDeviceName = native_method_of op
    /\ [VString "Elvis Ionic"] = forwarded_args op.
Proof.
  apply (every_native_call_was_requested
           [Call (new_HyperTrack 7) (setDeviceName "Elvis Ionic");
            Native (Fires 0 Success [])]
           empty_world 0
           (mkNativeCall 7 Cordova_setDeviceName [VString "Elvis Ionic"]
              (ResolveVoid 0) (RejectWithArg 0))).
  - reflexivity.
  - cbn. lia.
Defined.

(** * Native methods that throw *)

Lemma invoke_with_promise (b : native_behaviour) (this : HyperTrack)
    (op : operation) (w : world) :
  is_stream op = false ->
  invoke_with b this op w
  = (Normal (RPromise (FacadePromise (length (promises w)))),
     mkWorld
       (promises w
          ++ [match b (native_calls w)
                      (promise_call this op (length (promises w))) with
              | Some exn => Rejected exn
              | None => Pending
              end])
       (subscribers w)
       (native_calls w ++ [promise_call this op (length (promises w))])
       (plugin_calls w)).
Proof.
  intros S. unfold invoke_with. rewrite S.
  unfold bind, new_Promise, call_native_with, promise_call.
  cbn [native_calls set_promises promises subscribers plugin_calls].
  destruct (b (native_calls w) _) as [exn |]; [| reflexivity].
  unfold exec, call_native, modify, set_native_calls, reject.
  cbn [snd native_calls promises subscribers plugin_calls].
  rewrite settle_fresh. reflexivity.
Qed.

Lemma invoke_with_stream (b : native_behaviour) (this : HyperTrack)
    (op : operation) (w : world) :
  is_stream op = true ->
  exists o,
    invoke_with b this op w = (Normal (RObservable o), w)
    /\ forall w',
         subscribe o w'
         = (Normal (length (subscribers w')),
            mkWorld (promises w')
              (subscribers w'
                 ++ [match b (native_calls w')
                             (stream_call this op (length (subscribers w'))) with
                     | Some exn => mkSubscriber [Error exn] true
                     | None => mkSubscriber [] false
                     end])
              (native_calls w' ++ [stream_call this op (length (subscribers w'))])
              (plugin_calls w')).
Proof.
  intros S. unfold invoke_with. rewrite S. eexists. split; [reflexivity |].
  intros w'. unfold subscribe, call_native_with, stream_call.
  cbn [_subscribe native_calls set_subscribers promises subscribers plugin_calls].
  destruct (b (native_calls w') _) as [exn |]; [| reflexivity].
  unfold exec, call_native, observer_error, modify, set_native_calls,
    set_subscribers.
  cbn [snd native_calls promises subscribers plugin_calls].
  rewrite lookup_fresh. cbn. rewrite insert_fresh. reflexivity.
Qed.

Lemma invoke_with_returns (this : HyperTrack) (op : operation) (w : world) :
  invoke_with returns_normally this op w = invoke this op w.
Proof. destruct op; reflexivity. Qed.

Lemma step_with_call (b : native_behaviour) (this : HyperTrack)
    (op : operation) (w : world) :
  step_with b w (Call this op) = exec (invoke_with b this op) w.
Proof.
  unfold step_with, exec, perform_with, bind.
  destruct (invoke_with b this op w) as [[r | exn] w']; reflexivity.
Qed.

Lemma step_with_subscribe (b : native_behaviour) (this : HyperTrack)
    (op : operation) (w : world) :
  step_with b w (SubscribeTo this op)
  = if is_stream op
    then mkWorld (promises w)
           (subscribers w
              ++ [match b (native_calls w)
                          (stream_call this op (length (subscribers w))) with
                  | Some exn => mkSubscriber [Error exn] true
                  | None => mkSubscriber [] false
                  end])
           (native_calls w ++ [stream_call this op (length (subscribers w))])
           (plugin_calls w)
    else exec (invoke_with b this op) w.
Proof.
  unfold step_with, exec, perform_with, bind. destruct (is_stream op) eqn:S.
  - destruct (invoke_with_stream b this op w S) as (o & E & Sub).
    rewrite E, Sub. reflexivity.
  - rewrite (invoke_with_promise b this op w S). reflexivity.
Qed.

Lemma step_with_returns (a : action) (w : world) :
  step_with returns_normally w a = step w a.
Proof.
  destruct a as [this op | op | this op | s | ev]; try reflexivity.
  - rewrite step_with_call, exec_perform_call. unfold exec.
    rewrite invoke_with_returns. reflexivity.
  - unfold step_with, step, exec, perform_with, perform, bind.
    rewrite invoke_with_returns. reflexivity.
Qed.

Lemma run_with_returns (t : list action) (w : world) :
  run_with returns_normally t w = run t w.
Proof.
  revert w. induction t as [| a t IH]; intros w; [reflexivity |].
  cbn [run_with run fold_left]. rewrite step_with_returns. apply IH.
Qed.

Lemma thrown_in_returns (t : list action) (w : world) :
  thrown_in returns_normally t w = [].
Proof.
  revert w. induction t as [| a t IH]; intros w; [reflexivity |].
  cbn [thrown_in]. rewrite IH, app_nil_r. unfold thrown_by.
  induction (new_calls w a) as [| c l IHl]; [reflexivity | exact IHl].
Qed.

Lemma native_calls_step_with (b : native_behaviour) (a : action) (w : world) :
  native_calls (step_with b w a) = native_calls w ++ new_calls w a.
Proof.
  destruct a as [this op | op | this op | s | ev].
  - rewrite step_with_call. unfold exec. cbn [new_calls].
    destruct (is_stream op) eqn:S.
    + destruct (invoke_with_stream b this op w S) as (o & E & _).
      rewrite E. symmetry. apply app_nil_r.
    + rewrite (invoke_with_promise b this op w S). reflexivity.
  - apply (native_calls_step (CallStatic op)).
  - rewrite step_with_subscribe. cbn [new_calls]. destruct (is_stream op) eqn:S.
    + reflexivity.
    + unfold exec. rewrite (invoke_with_promise b this op w S). reflexivity.
  - apply (native_calls_step (Unsubscribe s)).
  - apply (native_calls_step (Native ev)).
Qed.

Lemma new_calls_shaped (a : action) (w : world) (call : native_call) :
  In call (new_calls w a) ->
  success_shaped (nc_success call) /\ failure_shaped (nc_failure call).
Proof.
  destruct a as [this op | op | this op | s | ev]; cbn [new_calls];
    try contradiction; destruct (is_stream op); try contradiction;
    intros [<- | []]; cbn; split; try exact I; destruct (passes_result op); exact I.
Qed.

Lemma well_formed_step_with (b : native_behaviour) (a : action) (w : world) :
  well_formed w -> well_formed (step_with b w a).
Proof.
  intros WF. unfold well_formed. rewrite native_calls_step_with.
  apply Forall_app. split; [exact WF |].
  apply Forall_forall. intros call H.
  apply list_elem_of_In, new_calls_shaped in H. exact H.
Qed.

Lemma grows_step_with (b : native_behaviour) (a : action) (w : world) :
  well_formed w ->
  grows (native_error a ++ thrown_by b w a) w (step_with b w a).
Proof.
  intros WF.
  assert (forall this op,
             is_stream op = false ->
             grows (match b (native_calls w)
                            (promise_call this op (length (promises w))) with
                    | Some exn => [exn]
                    | None => []
                    end)
               w (exec (invoke_with b this op) w)) as Promise.
  { intros this op S. unfold exec. rewrite (invoke_with_promise b this op w S).
    intros e. rewrite !in_surfaced_errors. cbn. rewrite in_flat_map_snoc.
    destruct (b (native_calls w) _); cbn; tauto. }
  destruct a as [this op | op | this op | s | ev].
  - rewrite step_with_call. unfold thrown_by. cbn [native_error new_calls app].
    destruct (is_stream op) eqn:S.
    + unfold exec. destruct (invoke_with_stream b this op w S) as (o & E & _).
      rewrite E. apply grows_refl.
    + cbn [flat_map]. rewrite app_nil_r. apply Promise, S.
  - eapply grows_weaken; [| apply (grows_step (CallStatic op) w WF)].
    intros e H. apply in_app_iff. auto.
  - rewrite step_with_subscribe. unfold thrown_by. cbn [native_error new_calls app].
    destruct (is_stream op) eqn:S.
    + cbn [flat_map]. rewrite app_nil_r.
      intros e. rewrite !in_surfaced_errors. cbn. rewrite in_flat_map_snoc.
      destruct (b (native_calls w) _); cbn; tauto.
    + cbn [flat_map]. rewrite app_nil_r. apply Promise, S.
  - eapply grows_weaken; [| apply (grows_step (Unsubscribe s) w WF)].
    intros e H. apply in_app_iff. auto.
  - eapply grows_weaken; [| apply (grows_step (Native ev) w WF)].
    intros e H. apply in_app_iff. auto.
Qed.

Lemma grows_run_with (b : native_behaviour) (t : list action) (w : world) :
  well_formed w ->
  grows (native_errors t ++ thrown_in b t w) w (run_with b t w).
Proof.
  revert w. induction t as [| a t IH]; intros w WF.
  - apply grows_refl.
  - cbn [run_with fold_left thrown_in].
    change (fold_left (step_with b) t ?x) with (run_with b t x).
    eapply grows_trans.
    + eapply grows_weaken; [| apply (grows_step_with b a w WF)].
      intros e. unfold native_errors. cbn [flat_map].
      rewrite !in_app_iff. tauto.
    + eapply grows_weaken; [| apply IH, well_formed_step_with, WF].
      intros e. unfold native_errors. cbn [flat_map].
      rewrite !in_app_iff. tauto.
Qed.

Lemma perform_with_returns (b : native_behaviour) (a : action) (w : world) :
  eval (perform_with b a) w = Normal tt.
Proof.
  destruct a as [this op | op | this op | s | ev];
    try apply (perform_returns _ w);
    unfold eval, perform_with, bind; destruct (is_stream op) eqn:S.
  - destruct (invoke_with_stream b this op w S) as (o & E & _).
    rewrite E. reflexivity.
  - rewrite (invoke_with_promise b this op w S). reflexivity.
  - destruct (invoke_with_stream b this op w S) as (o & E & Sub).
    rewrite E, Sub. reflexivity.
  - rewrite (invoke_with_promise b this op w S). reflexivity.
Qed.

(** C6, as stated, fails: when the native [getDeviceId] throws, the promise
    the facade returns is rejected with what was thrown, although the
    native layer has invoked no failure callback and rejected no promise. *)
Lemma thrown_error_surfaces :
  eval (invoke_with (always_throws (VError Error_ "boom")) (new_HyperTrack 0)
          getDeviceId)
    empty_world
  = Normal (RPromise (FacadePromise 0))
  /\ promise_state
       (run_with (always_throws (VError Error_ "boom"))
          [Call (new_HyperTrack 0) getDeviceId] empty_world)
       (FacadePromise 0)
     = Some (Rejected (VError Error_ "boom"))
  /\ surfaced_errors
       (run_with (always_throws (VError Error_ "boom"))
          [Call (new_HyperTrack 0) getDeviceId] empty_world)
     = [VError Error_ "boom"]
  /\ native_errors [Call (new_HyperTrack 0) getDeviceId] = [].
Proof. repeat split. Qed.

(** C6, as amended.  No method of the facade, static or not, throws, even
    when the native method it calls does: in every world and for every
    argument it returns normally, and so does every subscription to a
    stream and every callback the native layer invokes.  In any history of
    method calls, subscriptions and native events, every error that ends up
    as the reason of a rejected promise or as the error of a stream was
    there before or comes from the native layer: it is the argument of a
    failure callback, the reason of a rejected plugin promise, or what a
    native method threw when the facade called it.  Where no native method
    throws, only the first two remain.  The [Coordinates] constructor is
    the one place that throws an error of the wrapper's own, always the
    validation error. *)
Theorem surfaced_errors_are_native :
  (forall b this op w, exists r, eval (invoke_with b this op) w = Normal r)
  /\ (forall op w, exists r, eval (invoke_static op) w = Normal r)
  /\ (forall b a w, eval (perform_with b a) w = Normal tt)
  /\ (forall b t w e,
        well_formed w -> In e (surfaced_errors (run_with b t w)) ->
        In e (surfaced_errors w) \/ In e (native_errors t)
        \/ In e (thrown_in b t w))
  /\ (forall b t e,
        In e (surfaced_errors (run_with b t empty_world)) ->
        In e (native_errors t) \/ In e (thrown_in b t empty_world))
  /\ (forall t e,
        In e (surfaced_errors (run t empty_world)) -> In e (native_errors t))
  /\ (forall this op w, invoke_with returns_normally this op w = invoke this op w)
  /\ (forall t w, run_with returns_normally t w = run t w)
  /\ (forall latitude longitude w,
        new_Coordinates latitude longitude w = (Throw validation_error, w)
        \/ new_Coordinates latitude longitude w = (Normal mkCoordinates, w))
  /\ new_Coordinates (num 91) (num 0) empty_world
     = (Throw validation_error, empty_world).
Proof.
  repeat apply conj.
  - intros b this op w. unfold eval. destruct (is_stream op) eqn:S.
    + destruct (invoke_with_stream b this op w S) as (o & E & _).
      rewrite E. eexists; reflexivity.
    + rewrite (invoke_with_promise b this op w S). eexists; reflexivity.
  - intros op w. unfold eval. destruct op as [| key |];
      rewrite ?invoke_enableDebugLogging, ?invoke_initialize, ?invoke_getBlockers;
      eexists; reflexivity.
  - apply perform_with_returns.
  - intros b t w e WF H.
    destruct (grows_run_with b t w WF e H) as [H' | H']; [auto |].
    apply in_app_iff in H'. tauto.
  - intros b t e H.
    destruct (grows_run_with b t empty_world well_formed_empty e H) as [[] | H'].
    apply in_app_iff in H'. exact H'.
  - intros t e H.
    destruct (grows_run t empty_world well_formed_empty e H) as [[] | H'].
    exact H'.
  - apply invoke_with_returns.
  - apply run_with_returns.
  - apply new_Coordinates_total.
  - reflexivity.
Qed.

Lemma surfaced_errors_are_native_witness :
  (In (VError Error_ "boom") (surfaced_errors empty_world)
   \/ In (VError Error_ "boom")
        (native_errors [SubscribeTo (new_HyperTrack 0) trackingStateChange])
   \/ In (VError Error_ "boom")
        (thrown_in (always_throws (VError Error_ "boom"))
           [SubscribeTo (new_HyperTrack 0) trackingStateChange] empty_world))
  /\ In (VError Error_ "denied")
       (native_errors
          [Call (new_HyperTrack 0) start;
           Native (Fires 0 Failure [VError Error_ "denied"])]).
Proof.
  split.
  - apply surfaced_errors_are_native.
    + constructor.
    + cbn. left. reflexivity.
  - apply surfaced_errors_are_native. cbn. left. reflexivity.
Defined.
